(** * Terrain generation: mesh, height fields, hydrology and territories

    A shallow embedding of the terrain generator (height.js, water.js with the
    mesh code, cities.js) and the properties of its specification.

    Conventions of the embedding
    - A finite JavaScript number is an exact rational [Q]: rounding and
      overflow of IEEE doubles are not modelled.  Operations that can leave
      the finite numbers (a division, a square root) return a [jsnum], which
      adds [NaN] and the two infinities.  Zero is unsigned.
    - A height field is the list of its values; the mesh it is bound to
      ([h.mesh]) is passed next to it.
    - [Math.sqrt] is a parameter [sqrtQ] of the functions that call it.
    - A loop that the source runs [while (true)] or [while (queue.length)]
      takes a fuel (the number of iterations allowed) and returns [None]
      when the fuel runs out. *)

From Stdlib Require Import QArith Qround Lqa Lia ZArith String.
From stdpp Require Import base option list gmap relations.

(** ** JavaScript numbers *)

Module JsNum.

Inductive jsnum : Type :=
| Fin (q : Q)
| PInf
| NInf
| NaN.

Definition Qltb (x y : Q) : bool := negb (Qle_bool y x).

Definition is_nan (x : jsnum) : bool :=
  match x with NaN => true | _ => false end.

(** The sign of a number, as the comparison with zero. *)
Definition sign_of (x : jsnum) : comparison :=
  match x with
  | Fin q => (q ?= 0)%Q
  | PInf => Gt
  | NInf => Lt
  | NaN => Eq
  end.

Definition sign_mul (a b : comparison) : comparison :=
  match a, b with
  | Eq, _ | _, Eq => Eq
  | Gt, Gt | Lt, Lt => Gt
  | _, _ => Lt
  end.

(** An infinity of the given sign; no sign (0 * Infinity, 0 / 0) is [NaN]. *)
Definition inf_of (c : comparison) : jsnum :=
  match c with Gt => PInf | Lt => NInf | Eq => NaN end.

Definition jneg (x : jsnum) : jsnum :=
  match x with
  | Fin q => Fin (- q)
  | PInf => NInf
  | NInf => PInf
  | NaN => NaN
  end.

Definition jadd (x y : jsnum) : jsnum :=
  match x, y with
  | NaN, _ | _, NaN => NaN
  | Fin a, Fin b => Fin (a + b)
  | PInf, NInf | NInf, PInf => NaN
  | PInf, _ | _, PInf => PInf
  | NInf, _ | _, NInf => NInf
  end.

Definition jsub (x y : jsnum) : jsnum := jadd x (jneg y).

Definition jmul (x y : jsnum) : jsnum :=
  match x, y with
  | NaN, _ | _, NaN => NaN
  | Fin a, Fin b => Fin (a * b)
  | _, _ => inf_of (sign_mul (sign_of x) (sign_of y))
  end.

(** [x / y]: a finite non-zero value over zero is an infinity, [0 / 0] and
    [Infinity / Infinity] are [NaN]. *)
Definition jdiv (x y : jsnum) : jsnum :=
  match x, y with
  | NaN, _ | _, NaN => NaN
  | Fin a, Fin b => if Qeq_bool b 0 then inf_of (a ?= 0)%Q else Fin (a / b)
  | Fin _, _ => Fin 0
  | _, Fin b => inf_of (sign_mul (sign_of x) (if Qltb b 0 then Lt else Gt))
  | _, _ => NaN
  end.

(** [x < y]; every comparison with [NaN] is false. *)
Definition jlt (x y : jsnum) : bool :=
  match x, y with
  | Fin a, Fin b => Qltb a b
  | NInf, (Fin _ | PInf) => true
  | Fin _, PInf => true
  | _, _ => false
  end.

Definition jgt (x y : jsnum) : bool := jlt y x.

(** [Math.sqrt], over the square root [sqrtQ] of the finite numbers. *)
Definition jsqrt (sqrtQ : Q -> Q) (x : jsnum) : jsnum :=
  match x with
  | Fin q => if Qltb q 0 then NaN else Fin (sqrtQ q)
  | PInf => PInf
  | NInf | NaN => NaN
  end.

(** [d3.max]: the first value that is a number starts the maximum, a later
    value replaces it when it is greater ([value > max]); [NaN] is skipped;
    [None] is [undefined] (no number in the array). *)
Fixpoint d3_max_from (mx : jsnum) (l : list jsnum) : jsnum :=
  match l with
  | [] => mx
  | v :: r => d3_max_from (if jgt v mx then v else mx) r
  end.

Fixpoint d3_max (l : list jsnum) : option jsnum :=
  match l with
  | [] => None
  | v :: r => if is_nan v then d3_max r else Some (d3_max_from v r)
  end.

(** [d3.min], with [min > value]. *)
Fixpoint d3_min_from (mn : jsnum) (l : list jsnum) : jsnum :=
  match l with
  | [] => mn
  | v :: r => d3_min_from (if jgt mn v then v else mn) r
  end.

Fixpoint d3_min (l : list jsnum) : option jsnum :=
  match l with
  | [] => None
  | v :: r => if is_nan v then d3_min r else Some (d3_min_from v r)
  end.

(** [undefined] in arithmetic is [NaN]. *)
Definition num_of (o : option jsnum) : jsnum := default NaN o.

(** Equality of numbers up to the representation of a rational. *)
Definition jeq (x y : jsnum) : Prop :=
  match x, y with
  | Fin a, Fin b => (a == b)%Q
  | PInf, PInf | NInf, NInf | NaN, NaN => True
  | _, _ => False
  end.

End JsNum.
Export JsNum.

(** What a JavaScript call does: it returns a value or throws. *)
Inductive outcome (A : Type) : Type :=
| Ret (a : A)
| Throw (msg : string).
Arguments Ret {A} a.
Arguments Throw {A} msg.

(** ** The mesh (mesh code of water.js) *)

Abbreviation point := (Q * Q)%type.

Record Extent : Type := { width : Q; height : Q }.

(** A site of the tessellation is known by its index among the points: the
    source compares sites by object identity ([includes]). *)
Abbreviation site := nat.

(** An edge of the tessellation: two end points, the site on its left and
    the site on its right ([null] on the border of the extent). *)
Record VEdge : Type :=
  { e_0 : point; e_1 : point; e_left : site; e_right : option site }.

Record Mesh : Type :=
  { pts : list point;
    vxs : list point;
    adj : list (list nat);
    tris : list (list site);
    edges : list (nat * nat * site * option site);
    extent : Extent }.

Definition point_eqb (p q : point) : bool :=
  Qeq_bool (fst p) (fst q) && Qeq_bool (snd p) (snd q).

(** [vxids[p]]: the table from a position to its vertex id. *)
Fixpoint vxid (vxids : list (point * nat)) (p : point) : option nat :=
  match vxids with
  | [] => None
  | (q, i) :: r => if point_eqb q p then Some i else vxid r p
  end.

(** [a[i] = a[i] || []; a[i].push(x)].  An index past the end grows the
    array; the holes in between are modelled as empty lists. *)
Definition push_at {A} (i : nat) (x : A) (a : list (list A)) : list (list A) :=
  if (i <? length a)%nat then alter (fun l => l ++ [x]) i a
  else a ++ replicate (i - length a) [] ++ [[x]].

Definition includes (x : site) (l : list site) : bool :=
  existsb (Nat.eqb x) l.

(** [t[i] = t[i] || []; if (!t[i].includes(x)) t[i].push(x)] *)
Definition push_new_at (i : nat) (x : site) (t : list (list site)) : list (list site) :=
  if (i <? length t)%nat then
    alter (fun l => if includes x l then l else l ++ [x]) i t
  else t ++ replicate (i - length t) [] ++ [[x]].

Definition push_sites (i : nat) (e : VEdge) (t : list (list site)) : list (list site) :=
  let t1 := push_new_at i (e_left e) t in
  match e_right e with
  | Some r => push_new_at i r t1
  | None => t1
  end.

(** The state of the loop of [makeMesh] over the edges. *)
Record MeshAcc : Type :=
  { a_vxs : list point;
    a_vxids : list (point * nat);
    a_adj : list (list nat);
    a_edges : list (nat * nat * site * option site);
    a_tris : list (list site) }.

(** Look up or assign the vertex id of an end point. *)
Definition vertex_id (p : point) (a : MeshAcc) : nat * MeshAcc :=
  match vxid (a_vxids a) p with
  | Some i => (i, a)
  | None =>
      let i := length (a_vxs a) in
      (i, {| a_vxs := a_vxs a ++ [p];
             a_vxids := a_vxids a ++ [(p, i)];
             a_adj := a_adj a; a_edges := a_edges a; a_tris := a_tris a |})
  end.

Definition add_edge (a : MeshAcc) (oe : option VEdge) : MeshAcc :=
  match oe with
  | None => a
  | Some e =>
      let '(i0, a0) := vertex_id (e_0 e) a in
      let '(i1, a1) := vertex_id (e_1 e) a0 in
      {| a_vxs := a_vxs a1;
         a_vxids := a_vxids a1;
         a_adj := push_at i1 i0 (push_at i0 i1 (a_adj a1));
         a_edges := a_edges a1 ++ [(i0, i1, e_left e, e_right e)];
         a_tris := push_sites i1 e (push_sites i0 e (a_tris a1)) |}
  end.

(** [makeMesh(pts, extent)], over the tessellation [voronoi] that the
    source takes from d3; [vor.edges] may hold [undefined] entries. *)
Definition makeMesh (voronoi : list point -> Extent -> list (option VEdge))
    (ps : list point) (ext : Extent) : outcome Mesh :=
  let a := foldl add_edge
             {| a_vxs := []; a_vxids := []; a_adj := []; a_edges := []; a_tris := [] |}
             (voronoi ps ext) in
  Ret {| pts := ps; vxs := a_vxs a; adj := a_adj a; tris := a_tris a;
         edges := a_edges a; extent := ext |}.

(** [neighbours(mesh, i)]: a copy of [mesh.adj[i]]. *)
Definition neighbours (m : Mesh) (i : nat) : list nat := default [] (adj m !! i).

(** [isedge(mesh, i)] *)
Definition isedge (m : Mesh) (i : nat) : bool := (length (neighbours m i) <? 3)%nat.

Definition vx (m : Mesh) (i : nat) : point := default (0, 0)%Q (vxs m !! i).

(** [isnearedge(mesh, i)]: in the outer 5% of the map. *)
Definition isnearedge (m : Mesh) (i : nat) : bool :=
  let x := fst (vx m i) in
  let y := snd (vx m i) in
  let w := width (extent m) in
  let h := height (extent m) in
  (Qltb x (- (45 # 100) * w) || Qltb ((45 # 100) * w) x
   || Qltb y (- (45 # 100) * h) || Qltb ((45 # 100) * h) y)%Q.

(** A mesh as [makeMesh] builds it: one adjacency list per vertex, every
    neighbour a vertex.  The functions below read [mesh.adj[i]] and
    [mesh.vxs[i]] only inside these bounds. *)
Definition mesh_wf (m : Mesh) : bool :=
  (length (adj m) =? length (vxs m))%nat
  && forallb (forallb (fun j => (j <? length (vxs m))%nat)) (adj m).

(** Every edge is recorded at both of its ends. *)
Definition adj_symmetric (m : Mesh) : bool :=
  forallb (fun i => forallb (fun j => existsb (Nat.eqb i) (neighbours m j))
                            (neighbours m i))
          (seq 0 (length (adj m))).

(** ** Height fields (height.js)

    A field has one value per vertex of its mesh.  The source builds a
    result as [newh = zero(h.mesh)] followed by [newh[i] = e] for every
    [i < h.length]; the embedding writes it as the list of the [e] over the
    indices of [h].  [h[i]] outside the field is [undefined]; the readers
    below are used inside the bounds of a well-formed mesh only. *)

Abbreviation field := (list Q).

(** [zero(mesh)] *)
Definition zero (m : Mesh) : field := replicate (length (vxs m)) 0%Q.

Definition hval (h : field) (i : nat) : Q := default 0%Q (h !! i).

(** The input of the hydrology functions: a well-formed mesh and a field
    with one value per vertex. *)
Definition field_on (m : Mesh) (h : field) : bool :=
  mesh_wf m && (length h =? length (vxs m))%nat.

(** [normalize(h)]: [(x - lo) / (hi - lo)] at every value. *)
Definition normalize (h : field) : list jsnum :=
  let lo := num_of (d3_min (Fin <$> h)) in
  let hi := num_of (d3_max (Fin <$> h)) in
  (fun x => jdiv (jsub (Fin x) lo) (jsub hi lo)) <$> h.

(** [a[i]] of an operand in arithmetic: [undefined] past its end. *)
Definition operand_at (a : field) (i : nat) : jsnum :=
  match a !! i with Some x => Fin x | None => NaN end.

(** [add(...)]: [zero(arguments[0].mesh)] with the operands added, from
    left to right, at every index of the first one, bound to the mesh of the
    first one.  An entry of [zero] past the first operand stays 0; an index
    of the first operand past the mesh starts from [undefined] and extends
    the array.  With no operand, reading [arguments[0].length] throws. *)
Definition add (args : list (Mesh * field)) : outcome (Mesh * list jsnum) :=
  match args with
  | [] => Throw "TypeError: arguments[0] is undefined"
  | (m0, h0) :: _ =>
      Ret (m0,
           (fun i => if (i <? length h0)%nat
                     then foldl (fun acc a => jadd acc (operand_at (snd a) i))
                                (operand_at (zero m0) i) args
                     else operand_at (zero m0) i)
             <$> seq 0 (Nat.max (length h0) (length (vxs m0))))
  end.

(** ** Hydrology (height.js, water.js) *)

(** [downfrom(i)]: [-2] on the edge of the map, [-1] at a local minimum,
    else the lowest neighbour (the first one among equals). *)
Definition downfrom (m : Mesh) (h : field) (i : nat) : Z :=
  if isedge m i then (-2)%Z
  else
    match h !! i with
    | None => (-1)%Z
    | Some hi =>
        fst (foldl (fun '(best, besth) nb =>
                      match h !! nb with
                      | Some v => if Qltb v besth then (Z.of_nat nb, v) else (best, besth)
                      | None => (best, besth)
                      end)
                   ((-1)%Z, hi) (neighbours m i))
    end.

(** [downhill(h)]; the cache [h.downhill] only saves the recomputation. *)
Definition downhill (m : Mesh) (h : field) : list Z :=
  downfrom m h <$> seq 0 (length h).

(** [trislope(h, i)], over a field on its mesh ([field_on]) at a vertex
    [i]: there every neighbour has a position and a height.  Elsewhere the
    source reads [undefined]; [vx] and [hval] stand for the reads inside
    the bounds only. *)
Definition trislope (m : Mesh) (h : field) (i : nat) : jsnum * jsnum :=
  match neighbours m i with
  | [n0; n1; n2] =>
      let p0 := vx m n0 in
      let p1 := vx m n1 in
      let p2 := vx m n2 in
      let x1 := (fst p1 - fst p0)%Q in
      let x2 := (fst p2 - fst p0)%Q in
      let y1 := (snd p1 - snd p0)%Q in
      let y2 := (snd p2 - snd p0)%Q in
      let det := (x1 * y2 - x2 * y1)%Q in
      let h1 := (hval h n1 - hval h n0)%Q in
      let h2 := (hval h n2 - hval h n0)%Q in
      (jdiv (Fin (y2 * h1 - y1 * h2)) (Fin det),
       jdiv (Fin (- x2 * h1 + x1 * h2)) (Fin det))
  | _ => (Fin 0, Fin 0)
  end.

(** ** fillSinks *)

Definition infinity : Q := 999999.

(** [epsilon = epsilon || 1e-5]: an absent or zero epsilon is replaced. *)
Definition epsilon_or_default (epsilon : option Q) : Q :=
  match epsilon with
  | Some e => if Qeq_bool e 0 then 1 # 100000 else e
  | None => 1 # 100000
  end.

(** The start: the true height near the edge, [infinity] elsewhere.  The
    source starts from [zero(h.mesh)] and writes the indices of [h]: over a
    field with one value per vertex ([field_on]) these are all of them. *)
Definition fillSinks_init (m : Mesh) (h : field) : field :=
  imap (fun i hi => if isnearedge m i then hi else infinity) h.

(** The loop over the neighbours of vertex [i] (true height [hi]): the
    first test snaps [newh[i]] to [hi] and leaves the loop, the second
    lowers [newh[i]] and goes on.  A neighbour outside the array reads as
    [undefined], both tests are then false. *)
Fixpoint relax_nbs (eps hi : Q) (i : nat) (nbs : list nat)
    (newh : field) (changed : bool) : field * bool :=
  match nbs with
  | [] => (newh, changed)
  | nb :: rest =>
      match newh !! nb, newh !! i with
      | Some w, Some cur =>
          if Qle_bool (w + eps) hi then (<[i := hi]> newh, true)
          else
            let oh := (w + eps)%Q in
            if Qltb oh cur && Qltb hi oh
            then relax_nbs eps hi i rest (<[i := oh]> newh) true
            else relax_nbs eps hi i rest newh changed
      | _, _ => relax_nbs eps hi i rest newh changed
      end
  end.

(** One vertex of a pass: skipped when [newh[i] == h[i]]. *)
Definition visit (m : Mesh) (h : field) (eps : Q) (i : nat)
    (newh : field) (changed : bool) : field * bool :=
  match newh !! i, h !! i with
  | Some cur, Some hi =>
      if Qeq_bool cur hi then (newh, changed)
      else relax_nbs eps hi i (neighbours m i) newh changed
  | _, _ => (newh, changed)
  end.

(** The vertices [ixs] of a pass, in order. *)
Fixpoint sweep (m : Mesh) (h : field) (eps : Q) (ixs : list nat)
    (newh : field) (changed : bool) : field * bool :=
  match ixs with
  | [] => (newh, changed)
  | i :: rest =>
      let '(newh', changed') := visit m h eps i newh changed in
      sweep m h eps rest newh' changed'
  end.

(** One pass of the [while (true)] loop: the new array and [changed]. *)
Definition pass (m : Mesh) (h : field) (eps : Q) (newh : field) : field * bool :=
  sweep m h eps (seq 0 (length h)) newh false.

(** [fuel] passes of the loop; it returns after the first pass that
    changes nothing. *)
Fixpoint fillSinks_loop (m : Mesh) (h : field) (eps : Q) (fuel : nat)
    (newh : field) : option field :=
  match fuel with
  | O => None
  | S fuel' =>
      let '(newh', changed) := pass m h eps newh in
      if changed then fillSinks_loop m h eps fuel' newh' else Some newh'
  end.

(** [fillSinks(h, epsilon)] *)
Definition fillSinks (fuel : nat) (m : Mesh) (h : field) (epsilon : option Q)
    : option field :=
  fillSinks_loop m h (epsilon_or_default epsilon) fuel (fillSinks_init m h).

(** ** getFlux *)

(** [idxs.sort(function (a, b) { return h[b] - h[a] })]: a stable sort of
    the indices by descending height. *)
Fixpoint insert_desc (h : field) (a : nat) (l : list nat) : list nat :=
  match l with
  | [] => [a]
  | b :: r => if Qltb (hval h a) (hval h b) then b :: insert_desc h a r else a :: l
  end.

Definition sort_desc (h : field) (l : list nat) : list nat :=
  foldr (insert_desc h) [] l.

(** [if (dh[j] >= 0) flux[dh[j]] += flux[j]] *)
Definition drain (dh : list Z) (flux : list Q) (j : nat) : list Q :=
  match dh !! j with
  | Some d =>
      if (0 <=? d)%Z then
        match flux !! Z.to_nat d, flux !! j with
        | Some ft, Some fj => <[Z.to_nat d := (ft + fj)%Q]> flux
        | _, _ => flux
        end
      else flux
  | None => flux
  end.

(** [getFlux(h)] *)
Definition getFlux (m : Mesh) (h : field) : list Q :=
  let dh := downhill m h in
  let n := length h in
  foldl (drain dh)
        (replicate n (1 / inject_Z (Z.of_nat n))%Q)
        (sort_desc h (seq 0 n)).

(** ** Rivers *)

Definition midpoint (up down : point) : point :=
  (((fst up + fst down) / 2)%Q, ((snd up + snd down) / 2)%Q).

(** [limit *= above / h.length] *)
Definition river_limit (h : field) (limit : Q) : Q :=
  (limit * (inject_Z (Z.of_nat (length (filter (fun x => Qltb 0 x = true) h)))
            / inject_Z (Z.of_nat (length h))))%Q.

(** The segment of vertex [i], if it has one. *)
Definition river_link (m : Mesh) (h : field) (dh : list Z) (flux : list Q)
    (lim : Q) (i : nat) : option (point * point) :=
  if isnearedge m i then None
  else
    let d := default (-1)%Z (dh !! i) in
    if Qltb lim (default 0%Q (flux !! i)) && Qltb 0 (hval h i) && (0 <=? d)%Z
    then
      let up := vx m i in
      let down := vx m (Z.to_nat d) in
      if Qltb 0 (hval h (Z.to_nat d)) then Some (up, down)
      else Some (up, midpoint up down)
    else None.

(** The [links] of [getRivers]. *)
Definition river_links (m : Mesh) (h : field) (limit : Q) : list (point * point) :=
  let dh := downhill m h in
  let flux := getFlux m h in
  let lim := river_limit h limit in
  omap (river_link m h dh flux lim) (seq 0 (length dh)).

(** [getRivers(h, limit)]; [merge] stands for
    [mergeSegments(links).map(relaxPath)]. *)
Definition getRivers {A} (merge : list (point * point) -> A)
    (m : Mesh) (h : field) (limit : Q) : A :=
  merge (river_links m h limit).

(** ** Slope, erosion and territories: the functions that call [Math.sqrt] *)

Section WithSqrt.

Variable sqrtQ : Q -> Q.

(** [getSlope(h)]: the length of the gradient at every vertex. *)
Definition getSlope (m : Mesh) (h : field) : list jsnum :=
  (fun i => let s := trislope m h i in
            jsqrt sqrtQ (jadd (jmul (fst s) (fst s)) (jmul (snd s) (snd s))))
    <$> seq 0 (length h).

(** The rate of one vertex, from its flux and its slope. *)
Definition erosion_total (fl : Q) (sl : jsnum) : jsnum :=
  let river := jmul (jsqrt sqrtQ (Fin fl)) sl in
  let creep := jmul sl sl in
  let total := jadd (jmul (Fin 1000) river) creep in
  if jgt total (Fin 200) then Fin 200 else total.

(** [erosionRate(h)] *)
Definition erosionRate (m : Mesh) (h : field) : list jsnum :=
  let flux := getFlux m h in
  let slope := getSlope m h in
  (fun i => erosion_total (default 0%Q (flux !! i)) (default NaN (slope !! i)))
    <$> seq 0 (length h).

(** [erode(h, amount)] *)
Definition erode (m : Mesh) (h : field) (amount : Q) : list jsnum :=
  let er := erosionRate m h in
  let maxr := num_of (d3_max er) in
  imap (fun i hi => jsub (Fin hi)
                      (jmul (Fin amount) (jdiv (default NaN (er !! i)) maxr))) h.

(** [distance(mesh, i, j)] *)
Definition distance (m : Mesh) (i j : nat) : Q :=
  let p := vx m i in
  let q := vx m j in
  sqrtQ ((fst p - fst q) * (fst p - fst q) + (snd p - snd q) * (snd p - snd q))%Q.

(** An entry of the priority queue. *)
Record entry : Type := { score : jsnum; city : nat; target : nat }.

(** [weight(u, v)] of [getTerritories]. *)
Definition weight (m : Mesh) (h : field) (flux : list Q) (u v : nat) : jsnum :=
  let horiz := distance m u v in
  let vert0 := (hval h v - hval h u)%Q in
  let vert := if Qltb 0 vert0 then (vert0 / 10)%Q else vert0 in
  let r := jdiv (Fin vert) (Fin horiz) in
  let diff := jadd (Fin 1) (jmul (Fin (25 # 100)) (jmul r r)) in
  let diff := jadd diff (jmul (Fin 100) (jsqrt sqrtQ (Fin (default 0%Q (flux !! u))))) in
  let diff := if Qle_bool (hval h u) 0 then Fin 100 else diff in
  if xorb (Qltb 0 (hval h u)) (Qltb 0 (hval h v)) then Fin 1000
  else jmul (Fin horiz) diff.

(** The priority queue is outside the program: its content is the list of
    the pending entries, [queue.queue(e)] adds one, and [dequeue] takes
    one out (the one with the lowest score, for a queue that keeps its
    contract). *)
Variable dequeue : list entry -> option (entry * list entry).

(** The territory map [terr]: a sparse array from a vertex to its owner. *)
Definition seed (m : Mesh) (h : field) (flux : list Q)
    (st : gmap nat nat * list entry) (c : nat) : gmap nat nat * list entry :=
  (<[c := c]> (fst st),
   foldl (fun q nb => q ++ [{| score := weight m h flux c nb; city := c; target := nb |}])
         (snd st) (neighbours m c)).

(** The neighbours of the vertex just taken by [u], queued unless owned. *)
Definition expand (m : Mesh) (h : field) (flux : list Q) (u : entry)
    (terr : gmap nat nat) (q : list entry) : list entry :=
  foldl (fun q v =>
           match terr !! v with
           | Some _ => q
           | None => q ++ [{| score := jadd (score u) (weight m h flux (target u) v);
                              city := city u; target := v |}]
           end)
        q (neighbours m (target u)).

(** One turn of [while (queue.length)], on a queue that is not empty. *)
Definition terr_step (m : Mesh) (h : field) (flux : list Q)
    (terr : gmap nat nat) (q : list entry) : option (gmap nat nat * list entry) :=
  match dequeue q with
  | None => None
  | Some (u, q') =>
      match terr !! target u with
      | Some _ => Some (terr, q')
      | None =>
          let terr' := <[target u := city u]> terr in
          Some (terr', expand m h flux u terr' q')
      end
  end.

Fixpoint terr_loop (m : Mesh) (h : field) (flux : list Q) (fuel : nat)
    (terr : gmap nat nat) (q : list entry) : option (gmap nat nat) :=
  match q with
  | [] => Some terr
  | _ :: _ =>
      match fuel with
      | O => None
      | S fuel' =>
          match terr_step m h flux terr q with
          | Some (terr', q') => terr_loop m h flux fuel' terr' q'
          | None => None
          end
      end
  end.

(** The capitals: [n = min(nterrs, cities.length)] first cities. *)
Definition capitals (cities : list nat) (nterrs : nat) : list nat :=
  take (Nat.min nterrs (length cities)) cities.

(** [getTerritories(render)], with [render.h], [render.cities] and
    [render.params.nterrs]. *)
Definition getTerritories (fuel : nat) (m : Mesh) (h : field)
    (cities : list nat) (nterrs : nat) : option (gmap nat nat) :=
  let flux := getFlux m h in
  let st := foldl (seed m h flux) (∅, []) (capitals cities nterrs) in
  terr_loop m h flux fuel (fst st) (snd st).

End WithSqrt.

(** ** Instances of the parameters, for the examples *)

(** A square root on the rationals: the floor at six decimals. *)
Definition sqrt6 (q : Q) : Q :=
  (inject_Z (Z.sqrt (Qfloor (q * 1000000000000))) / 1000000)%Q.

(** A priority queue on the list of pending entries: the entry taken out
    is the first one of the lowest score. *)
Fixpoint extract_min (e : entry) (r : list entry) : entry * list entry :=
  match r with
  | [] => (e, [])
  | e' :: r' =>
      let '(mn, rest) := extract_min e' r' in
      if jlt (score mn) (score e) then (mn, e :: rest) else (e, mn :: rest)
  end.

Definition dequeue_min (q : list entry) : option (entry * list entry) :=
  match q with
  | [] => None
  | e :: r => Some (extract_min e r)
  end.

(** * Properties *)

(** ** Comparisons of rationals *)

Lemma Qltb_lt (a b : Q) : Qltb a b = true <-> (a < b)%Q.
Proof.
  unfold Qltb. rewrite negb_true_iff. split; intros H.
  - apply Qnot_le_lt. intros Hle. apply Qle_bool_iff in Hle. congruence.
  - destruct (Qle_bool b a) eqn:E; [|done].
    apply Qle_bool_iff in E. exfalso. lra.
Qed.

Lemma Qltb_ge (a b : Q) : Qltb a b = false <-> (b <= a)%Q.
Proof.
  unfold Qltb. rewrite negb_false_iff. apply Qle_bool_iff.
Qed.

Lemma Qle_bool_false (a b : Q) : Qle_bool a b = false <-> (b < a)%Q.
Proof.
  rewrite <- Qltb_lt. unfold Qltb. by rewrite negb_true_iff.
Qed.

Lemma Qeq_bool_false (a b : Q) : Qeq_bool a b = false <-> ~ (a == b)%Q.
Proof.
  split.
  - intros H E. apply Qeq_bool_iff in E. congruence.
  - intros H. destruct (Qeq_bool a b) eqn:E; [|done].
    apply Qeq_bool_iff in E. done.
Qed.

Ltac qbool :=
  repeat match goal with
    | H : Qltb _ _ = true |- _ => apply Qltb_lt in H
    | H : Qltb _ _ = false |- _ => apply Qltb_ge in H
    | H : Qle_bool _ _ = true |- _ => apply Qle_bool_iff in H
    | H : Qle_bool _ _ = false |- _ => apply Qle_bool_false in H
    | H : Qeq_bool _ _ = true |- _ => apply Qeq_bool_iff in H
    | H : Qeq_bool _ _ = false |- _ => apply Qeq_bool_false in H
    end.
(** ** d3.max and d3.min *)

Definition fin_or_nan (x : jsnum) : Prop :=
  match x with Fin _ | NaN => True | _ => False end.

Lemma d3_max_from_spec (l : list jsnum) : forall a,
  Forall fin_or_nan l ->
  exists mx, d3_max_from (Fin a) l = Fin mx
    /\ (Fin mx = Fin a \/ Fin mx ∈ l) /\ (a <= mx)%Q
    /\ forall q, Fin q ∈ l -> (q <= mx)%Q.
Proof.
  induction l as [|v r IH]; intros a Hl; simpl.
  - exists a. split_and!; [done|by left|lra|]. intros q Hq. by apply elem_of_nil in Hq.
  - apply Forall_cons in Hl as [Hv Hr].
    destruct v as [b| | |]; simpl in Hv; try done; unfold jgt; simpl.
    + destruct (Qltb a b) eqn:E; qbool.
      * destruct (IH b Hr) as (mx & -> & Hin & Hle & Hall).
        exists mx. split_and!; [done| |lra|].
        -- right. destruct Hin as [->|Hin]; [left|by right].
        -- intros q Hq. apply elem_of_cons in Hq as [[= ->]|Hq]; [done|by apply Hall].
      * destruct (IH a Hr) as (mx & -> & Hin & Hle & Hall).
        exists mx. split_and!; [done| |done|].
        -- destruct Hin as [Hin|Hin]; [by left|right; by right].
        -- intros q Hq. apply elem_of_cons in Hq as [[= ->]|Hq]; [lra|by apply Hall].
    + destruct (IH a Hr) as (mx & -> & Hin & Hle & Hall).
      exists mx. split_and!; [done| |done|].
      * destruct Hin as [Hin|Hin]; [by left|right; by right].
      * intros q Hq. apply elem_of_cons in Hq as [[=]|Hq]. by apply Hall.
Qed.

Lemma d3_max_spec (l : list jsnum) :
  Forall fin_or_nan l ->
  match d3_max l with
  | Some r => exists mx, r = Fin mx /\ Fin mx ∈ l /\ forall q, Fin q ∈ l -> (q <= mx)%Q
  | None => forall q, Fin q ∉ l
  end.
Proof.
  induction l as [|v r IH]; intros Hl; simpl.
  - intros q Hq. by apply elem_of_nil in Hq.
  - apply Forall_cons in Hl as [Hv Hr].
    destruct v as [b| | |]; simpl in Hv; try done; simpl.
    + destruct (d3_max_from_spec r b Hr) as (mx & -> & Hin & Hle & Hall).
      exists mx. split_and!; [done| |].
      * destruct Hin as [->|Hin]; [left|by right].
      * intros q Hq. apply elem_of_cons in Hq as [[= ->]|Hq]; [done|by apply Hall].
    + specialize (IH Hr). destruct (d3_max r) as [x|].
      * destruct IH as (mx & -> & Hin & Hall). exists mx. split_and!; [done|by right|].
        intros q Hq. apply elem_of_cons in Hq as [[=]|Hq]. by apply Hall.
      * intros q Hq. apply elem_of_cons in Hq as [[=]|Hq]. by apply (IH q).
Qed.

Lemma d3_min_from_spec (l : list jsnum) : forall a,
  Forall fin_or_nan l ->
  exists mn, d3_min_from (Fin a) l = Fin mn
    /\ (Fin mn = Fin a \/ Fin mn ∈ l) /\ (mn <= a)%Q
    /\ forall q, Fin q ∈ l -> (mn <= q)%Q.
Proof.
  induction l as [|v r IH]; intros a Hl; simpl.
  - exists a. split_and!; [done|by left|lra|]. intros q Hq. by apply elem_of_nil in Hq.
  - apply Forall_cons in Hl as [Hv Hr].
    destruct v as [b| | |]; simpl in Hv; try done; unfold jgt; simpl.
    + destruct (Qltb b a) eqn:E; qbool.
      * destruct (IH b Hr) as (mx & -> & Hin & Hle & Hall).
        exists mx. split_and!; [done| |lra|].
        -- right. destruct Hin as [->|Hin]; [left|by right].
        -- intros q Hq. apply elem_of_cons in Hq as [[= ->]|Hq]; [done|by apply Hall].
      * destruct (IH a Hr) as (mx & -> & Hin & Hle & Hall).
        exists mx. split_and!; [done| |done|].
        -- destruct Hin as [Hin|Hin]; [by left|right; by right].
        -- intros q Hq. apply elem_of_cons in Hq as [[= ->]|Hq]; [lra|by apply Hall].
    + destruct (IH a Hr) as (mx & -> & Hin & Hle & Hall).
      exists mx. split_and!; [done| |done|].
      * destruct Hin as [Hin|Hin]; [by left|right; by right].
      * intros q Hq. apply elem_of_cons in Hq as [[=]|Hq]. by apply Hall.
Qed.

Lemma Forall_fin (h : field) : Forall fin_or_nan (Fin <$> h).
Proof. apply Forall_fmap, Forall_forall. by intros. Qed.

Lemma elem_of_fin (h : field) (q : Q) : Fin q ∈ Fin <$> h <-> q ∈ h.
Proof.
  rewrite list_elem_of_fmap. split.
  - by intros (y & [= ->] & Hy).
  - intros Hq. by exists q.
Qed.

(** The bounds that [normalize] reads from a field that is not empty. *)
Lemma field_bounds (h : field) :
  h <> [] ->
  exists lo hi, d3_min (Fin <$> h) = Some (Fin lo) /\ d3_max (Fin <$> h) = Some (Fin hi)
    /\ lo ∈ h /\ hi ∈ h /\ forall q, q ∈ h -> (lo <= q <= hi)%Q.
Proof.
  destruct h as [|x r]; [done|]. intros _. rewrite fmap_cons. cbn [d3_min d3_max is_nan].
  destruct (d3_min_from_spec (Fin <$> r) x (Forall_fin r)) as (lo & -> & Hlo & Hlx & Hlo').
  destruct (d3_max_from_spec (Fin <$> r) x (Forall_fin r)) as (hi & -> & Hhi & Hxh & Hhi').
  exists lo, hi. split_and!; try done.
  - destruct Hlo as [[= ->]|Hlo]; [left|right; by apply elem_of_fin].
  - destruct Hhi as [[= ->]|Hhi]; [left|right; by apply elem_of_fin].
  - intros q Hq. apply elem_of_cons in Hq as [->|Hq]; [done|].
    split; [apply Hlo'|apply Hhi']; by apply elem_of_fin.
Qed.

Lemma normalize_lookup (h : field) (i : nat) (x lo hi : Q) :
  d3_min (Fin <$> h) = Some (Fin lo) -> d3_max (Fin <$> h) = Some (Fin hi) ->
  h !! i = Some x ->
  normalize h !! i = Some (jdiv (Fin (x + - lo)) (Fin (hi + - lo))).
Proof.
  intros Hlo Hhi Hx. unfold normalize. rewrite list_lookup_fmap, Hx, Hlo, Hhi. done.
Qed.

(** C6 (amended): over a field whose maximum exceeds its minimum every value of
    [normalize] is a number in [0,1], 0 at a minimum and 1 at a maximum;
    over a constant field every value is [NaN] (the source divides 0 by 0). *)
Theorem normalize_range_or_nan (h : field) :
  (forall a b, a ∈ h -> b ∈ h -> (a < b)%Q ->
     forall i x, h !! i = Some x ->
       exists y, normalize h !! i = Some (Fin y) /\ (0 <= y <= 1)%Q
         /\ ((forall z, z ∈ h -> (x <= z)%Q) -> (y == 0)%Q)
         /\ ((forall z, z ∈ h -> (z <= x)%Q) -> (y == 1)%Q))
  /\ ((forall a b, a ∈ h -> b ∈ h -> (a == b)%Q) ->
      forall i, (i < length h)%nat -> normalize h !! i = Some NaN).
Proof.
  split.
  - intros a b Ha Hb Hab i x Hx.
    assert (Hne : h <> []) by (intros ->; by apply elem_of_nil in Ha).
    destruct (field_bounds h Hne) as (lo & hi & Hlo & Hhi & Hloin & Hhiin & Hb').
    assert (Hxin : x ∈ h) by (apply list_elem_of_lookup; eauto).
    pose proof (Hb' a Ha) as Ha'. pose proof (Hb' b Hb) as Hb''. pose proof (Hb' x Hxin) as Hx'.
    assert (Hpos : (0 < hi + - lo)%Q) by lra.
    rewrite (normalize_lookup h i x lo hi Hlo Hhi Hx). simpl.
    destruct (Qeq_bool (hi + - lo) 0) eqn:E; qbool; [lra|].
    exists ((x + - lo) / (hi + - lo))%Q. split_and!; [done| | | |].
    + apply Qle_shift_div_l; [done|lra].
    + apply Qle_shift_div_r; [done|lra].
    + intros Hmin. pose proof (Hmin lo Hloin).
      assert (Hz : (x + - lo == 0)%Q) by lra. rewrite Hz. unfold Qdiv. ring.
    + intros Hmax. pose proof (Hmax hi Hhiin).
      assert (Hz : (x + - lo == hi + - lo)%Q) by lra. rewrite Hz. field. lra.
  - intros Hconst i Hi.
    destruct (lookup_lt_is_Some_2 h i Hi) as [x Hx].
    assert (Hne : h <> []) by (intros ->; simpl in Hi; lia).
    destruct (field_bounds h Hne) as (lo & hi & Hlo & Hhi & Hloin & Hhiin & Hb').
    assert (Hxin : x ∈ h) by (apply list_elem_of_lookup; eauto).
    pose proof (Hconst lo hi Hloin Hhiin). pose proof (Hconst x lo Hxin Hloin).
    rewrite (normalize_lookup h i x lo hi Hlo Hhi Hx). simpl.
    destruct (Qeq_bool (hi + - lo) 0) eqn:E; qbool; [|lra].
    assert (Hz : (x + - lo == 0)%Q) by lra.
    apply Qeq_alt in Hz. rewrite Hz. done.
Qed.

Lemma normalize_range_or_nan_witness :
  normalize [1; 3; 2]%Q !! 2%nat = Some (Fin ((2 + - 1) / (3 + - 1))%Q)
  /\ normalize [5; 5]%Q !! 1%nat = Some NaN.
Proof.
  destruct (normalize_range_or_nan [1; 3; 2]%Q) as [H _].
  destruct (normalize_range_or_nan [5; 5]%Q) as [_ H'].
  split.
  - reflexivity.
  - apply H'; [|simpl; lia]. intros a b Ha Hb.
    repeat (apply elem_of_cons in Ha as [->|Ha]); repeat (apply elem_of_cons in Hb as [->|Hb]);
      try reflexivity; by apply elem_of_nil in Ha || by apply elem_of_nil in Hb.
Defined.

(** C6, against the claim: the constant field [[1; 1]] is not normalized to
    zeros. *)
Lemma normalize_constant_is_nan :
  normalize [1; 1]%Q = [NaN; NaN].
Proof. reflexivity. Qed.

(** ** Configuration errors: makeMesh and add *)

(** A tessellation that yields no edge, as for an empty set of points. *)
Definition no_edges (ps : list point) (ext : Extent) : list (option VEdge) := [].

Definition empty_mesh : Mesh :=
  {| pts := []; vxs := []; adj := []; tris := []; edges := [];
     extent := {| width := 0; height := 0 |} |}.

(** Two vertices one edge apart, and a mesh of one vertex. *)
Definition two_mesh : Mesh :=
  {| pts := []; vxs := [(0, 0); (1 # 10, 0)]%Q; adj := [[1]; [0]]%nat; tris := [[]; []];
     edges := []; extent := {| width := 1; height := 1 |} |}.

Definition one_mesh : Mesh :=
  {| pts := []; vxs := [(0, 0)]%Q; adj := [[]]; tris := [[]];
     edges := []; extent := {| width := 1; height := 1 |} |}.

(** C9, against the claim: no points in an extent of width and height zero
    give a mesh, not an error, and fields of two meshes and two lengths are
    added, not refused: the missing value reads as [undefined]. *)
Lemma degenerate_configuration_accepted :
  makeMesh no_edges [] {| width := 0; height := 0 |} = Ret empty_mesh
  /\ add [(two_mesh, [1; 2]%Q); (one_mesh, [1]%Q)] = Ret (two_mesh, [Fin (0 + 1 + 1); NaN]).
Proof. split; reflexivity. Qed.

(** ** trislope *)

(** C7 (amended): over a field on its mesh and at a vertex of it,
    [trislope] samples the three adjacent vertices of the
    vertex (not the sites of the tessellation).  When the vertex has three
    neighbours and the determinant is not zero, the gradient is the
    solution by Cramer's rule of the two equations of the height
    differences against the position differences; any other number of
    neighbours gives the zero gradient. *)
Theorem trislope_cramer (m : Mesh) (h : field) (i : nat) :
  field_on m h = true -> (i < length h)%nat ->
  (forall n0 n1 n2, neighbours m i = [n0; n1; n2] ->
     let x1 := (fst (vx m n1) - fst (vx m n0))%Q in
     let x2 := (fst (vx m n2) - fst (vx m n0))%Q in
     let y1 := (snd (vx m n1) - snd (vx m n0))%Q in
     let y2 := (snd (vx m n2) - snd (vx m n0))%Q in
     let det := (x1 * y2 - x2 * y1)%Q in
     let h1 := (hval h n1 - hval h n0)%Q in
     let h2 := (hval h n2 - hval h n0)%Q in
     ~ (det == 0)%Q ->
     exists gx gy, trislope m h i = (Fin gx, Fin gy)
       /\ (gx == (y2 * h1 - y1 * h2) / det)%Q
       /\ (gy == (- x2 * h1 + x1 * h2) / det)%Q
       /\ (x1 * gx + y1 * gy == h1)%Q
       /\ (x2 * gx + y2 * gy == h2)%Q)
  /\ (length (neighbours m i) <> 3%nat -> trislope m h i = (Fin 0, Fin 0)).
Proof.
  intros _ _. split.
  - intros n0 n1 n2 Hn x1 x2 y1 y2 det h1 h2 Hdet.
    unfold trislope. rewrite Hn. fold x1 x2 y1 y2. fold det. fold h1 h2.
    unfold jdiv. apply Qeq_bool_false in Hdet. rewrite Hdet.
    apply Qeq_bool_false in Hdet.
    eexists _, _. split; [reflexivity|]. split_and!; try reflexivity.
    all: subst x1 x2 y1 y2 det h1 h2; field; done.
  - intros Hlen. unfold trislope.
    destruct (neighbours m i) as [|n0 [|n1 [|n2 [|n3 r]]]]; simpl in Hlen; try done.
Qed.

(** A vertex on the border of the extent: the edge from (2/10, 0) between
    the sites 0 and 1 ends at (1/2, 0), where two border edges start. *)
Definition border_edges (ps : list point) (ext : Extent) : list (option VEdge) :=
  [ Some {| e_0 := (2 # 10, 0); e_1 := (1 # 2, 0); e_left := 0; e_right := Some 1%nat |};
    Some {| e_0 := (1 # 2, 0); e_1 := (1 # 2, 1 # 2); e_left := 0; e_right := None |};
    Some {| e_0 := (1 # 2, 0); e_1 := (1 # 2, - (1 # 2)); e_left := 1; e_right := None |} ]%Q.

Definition border_mesh : Mesh :=
  {| pts := [(3 # 10, 3 # 10); (3 # 10, - (3 # 10))]%Q;
     vxs := [(2 # 10, 0); (1 # 2, 0); (1 # 2, 1 # 2); (1 # 2, - (1 # 2))]%Q;
     adj := [[1]; [0; 2; 3]; [1]; [1]]%nat;
     tris := [[0; 1]; [0; 1]; [0]; [1]]%nat;
     edges := [(0, 1, 0, Some 1); (1, 2, 0, None); (1, 3, 1, None)]%nat;
     extent := {| width := 1; height := 1 |} |}.

Lemma trislope_cramer_witness :
  exists gx gy, trislope border_mesh [0; 0; 1; 1]%Q 1 = (Fin gx, Fin gy)
    /\ (((1 # 2) - (2 # 10)) * gx + ((1 # 2) - 0) * gy == 1 - 0)%Q.
Proof.
  destruct (trislope_cramer border_mesh [0; 0; 1; 1]%Q 1) as [H _];
    [reflexivity|simpl; lia|].
  destruct (H 0%nat 2%nat 3%nat eq_refl) as (gx & gy & Hg & _ & _ & H1 & _).
  - vm_compute. discriminate.
  - exists gx, gy. split; [exact Hg|]. exact H1.
Defined.

(** C7, against the claim: vertex 1 of the mesh that [makeMesh] builds from
    the border edges touches two sites only, and its gradient, taken from
    its three neighbours, is not zero. *)
Lemma trislope_samples_neighbours :
  makeMesh border_edges [(3 # 10, 3 # 10); (3 # 10, - (3 # 10))]%Q
           {| width := 1; height := 1 |} = Ret border_mesh
  /\ tris border_mesh !! 1%nat = Some [0; 1]%nat
  /\ exists gx gy, trislope border_mesh [0; 0; 1; 1]%Q 1 = (Fin gx, Fin gy)
       /\ (gx == 10 # 3)%Q /\ (gy == 0)%Q.
Proof.
  split_and!; [reflexivity|reflexivity|].
  eexists _, _. split; [reflexivity|]. split; reflexivity.
Qed.

(** ** getFlux *)

Definition Qsum (l : list Q) : Q := foldr Qplus 0%Q l.

(** The flux that stands at the vertices on the edge of the map. *)
Definition boundary_flux (m : Mesh) (flux : list Q) : Q :=
  Qsum (omap (fun i => if isedge m i then flux !! i else None) (seq 0 (length flux))).

Lemma Qsum_insert (l : list Q) : forall t ft v,
  l !! t = Some ft -> (Qsum (<[t := v]> l) == Qsum l - ft + v)%Q.
Proof.
  induction l as [|x r IH]; intros t ft v Ht; [done|].
  destruct t as [|t]; simpl in *.
  - injection Ht as ->. lra.
  - rewrite (IH t ft v Ht). lra.
Qed.

Lemma Qsum_replicate (k : nat) (c : Q) :
  (Qsum (replicate k c) == inject_Z (Z.of_nat k) * c)%Q.
Proof.
  induction k as [|k IH]; [simpl; ring|].
  change (Qsum (replicate (S k) c)) with (c + Qsum (replicate k c))%Q.
  rewrite IH, Nat2Z.inj_succ. unfold Z.succ. rewrite inject_Z_plus.
  change (inject_Z 1) with 1%Q. ring.
Qed.

(** Four vertices, each adjacent to the three others. *)
Definition k4_mesh : Mesh :=
  {| pts := [];
     vxs := [(0, 0); (1 # 10, 0); (0, 1 # 10); (1 # 10, 1 # 10)]%Q;
     adj := [[1; 2; 3]; [0; 2; 3]; [0; 1; 3]; [0; 1; 2]]%nat;
     tris := [[]; []; []; []];
     edges := [];
     extent := {| width := 1; height := 1 |} |}.

(** C3, against the claim: on the four vertices no vertex is on the edge
    of the map, so no flux drains there, and the flux sums to 7/4, not to 1:
    the three upper vertices drain into the lowest one and keep their own
    quarter. *)
Lemma getFlux_total_exceeds_one :
  downhill k4_mesh [3; 2; 1; 0]%Q = [3; 3; 3; -1]%Z
  /\ getFlux k4_mesh [3; 2; 1; 0]%Q = [1 / 4; 1 / 4; 1 / 4; 1 / 4 + 1 / 4 + 1 / 4 + 1 / 4]%Q
  /\ (boundary_flux k4_mesh (getFlux k4_mesh [3; 2; 1; 0]%Q) == 0)%Q
  /\ (Qsum (getFlux k4_mesh [3; 2; 1; 0]%Q) == 7 # 4)%Q
  /\ ~ (Qsum (getFlux k4_mesh [3; 2; 1; 0]%Q)
        == 1 - boundary_flux k4_mesh (getFlux k4_mesh [3; 2; 1; 0]%Q))%Q.
Proof.
  split_and!; try reflexivity. vm_compute. discriminate.
Qed.

(** ** getRivers *)

Lemma length_downhill (m : Mesh) (h : field) : length (downhill m h) = length h.
Proof. unfold downhill. by rewrite length_fmap, length_seq. Qed.

(** The end of the segment of a vertex whose downhill target is [d]. *)
Definition river_end (m : Mesh) (h : field) (i : nat) (d : Z) : point :=
  if Qltb 0 (hval h (Z.to_nat d)) then vx m (Z.to_nat d)
  else midpoint (vx m i) (vx m (Z.to_nat d)).

(** C8 (amended): the segments of [getRivers] are those of the vertices that
    are not near the edge, whose flux exceeds the threshold, whose height
    is above sea level and which have a downhill target.  The segment runs
    from the vertex to its target when the target is above sea level and
    stops at the midpoint otherwise.  A vertex near the edge has no
    segment. *)
Theorem river_links_iff (m : Mesh) (h : field) (limit : Q) (seg : point * point) :
  field_on m h = true ->
  seg ∈ river_links m h limit <->
  exists i fl d,
    isnearedge m i = false
    /\ getFlux m h !! i = Some fl /\ downhill m h !! i = Some d
    /\ (river_limit h limit < fl)%Q /\ (0 < hval h i)%Q /\ (0 <= d)%Z
    /\ seg = (vx m i, river_end m h i d).
Proof.
  intros Hon.
  assert (Hlen : length (getFlux m h) = length h).
  { unfold getFlux.
    assert (G : forall idxs flux, length (foldl (drain (downhill m h)) flux idxs) = length flux).
    { induction idxs as [|j r IH]; intros flux; [done|]. simpl. rewrite IH.
      unfold drain. repeat case_match; try done. by rewrite length_insert. }
    by rewrite G, length_replicate. }
  unfold river_links. rewrite list_elem_of_omap. split.
  - intros (i & Hi & Hseg). apply elem_of_seq in Hi as [_ Hi]. simpl in Hi.
    unfold river_link in Hseg.
    destruct (isnearedge m i) eqn:Hne; [done|].
    destruct (lookup_lt_is_Some_2 (downhill m h) i Hi) as [d Hd].
    rewrite length_downhill in Hi.
    destruct (lookup_lt_is_Some_2 (getFlux m h) i) as [fl Hfl]; [lia|].
    rewrite Hd, Hfl in Hseg. simpl in Hseg.
    destruct (Qltb (river_limit h limit) fl) eqn:E1; [|done].
    destruct (Qltb 0 (hval h i)) eqn:E2; [|done].
    destruct (0 <=? d)%Z eqn:E3; [|done]. simpl in Hseg. qbool.
    exists i, fl, d. split_and!; try done; [lia|].
    unfold river_end. by destruct (Qltb 0 (hval h (Z.to_nat d))); injection Hseg as <-.
  - intros (i & fl & d & Hne & Hfl & Hd & H1 & H2 & H3 & ->).
    exists i. split.
    + apply elem_of_seq. split; [lia|]. simpl. by eapply lookup_lt_Some.
    + unfold river_link. rewrite Hne, Hd, Hfl. simpl.
      apply Qltb_lt in H1, H2. rewrite H1, H2.
      apply Z.leb_le in H3. rewrite H3. simpl.
      unfold river_end. by destruct (Qltb 0 (hval h (Z.to_nat d))).
Qed.

(** The four vertices again, the first one in the outer 5% of the map. *)
Definition k4_near_mesh : Mesh :=
  {| pts := [];
     vxs := [(48 # 100, 0); (1 # 10, 0); (0, 1 # 10); (1 # 10, 1 # 10)]%Q;
     adj := [[1; 2; 3]; [0; 2; 3]; [0; 1; 3]; [0; 1; 2]]%nat;
     tris := [[]; []; []; []];
     edges := [];
     extent := {| width := 1; height := 1 |} |}.

Lemma river_links_iff_witness :
  ((1 # 10, 0), (1 # 10, 1 # 10))%Q ∈ river_links k4_near_mesh [3; 2; 1; 1 # 2]%Q (1 # 10).
Proof.
  apply (river_links_iff k4_near_mesh [3; 2; 1; 1 # 2]%Q (1 # 10)); [reflexivity|].
  exists 1%nat, (1 / 4)%Q, 3%Z. split_and!; try reflexivity. lia.
Defined.

(** C8, against the claim: vertex 0 has a flux of 1/4 over the threshold
    1/10, the height 3 and the downhill target 3, and no segment: it is near
    the edge.  The two segments are those of the vertices 1 and 2. *)
Lemma river_skips_near_edge :
  isnearedge k4_near_mesh 0 = true
  /\ getFlux k4_near_mesh [3; 2; 1; 1 # 2]%Q !! 0%nat = Some (1 / 4)%Q
  /\ (river_limit [3; 2; 1; 1 # 2]%Q (1 # 10) == 1 # 10)%Q
  /\ downhill k4_near_mesh [3; 2; 1; 1 # 2]%Q !! 0%nat = Some 3%Z
  /\ river_links k4_near_mesh [3; 2; 1; 1 # 2]%Q (1 # 10)
     = [((1 # 10, 0), (1 # 10, 1 # 10)); ((0, 1 # 10), (1 # 10, 1 # 10))]%Q.
Proof. split_and!; reflexivity. Qed.

(** ** erosionRate and erode *)

(** A slope or a rate: a number that is not negative, [Infinity] or [NaN]. *)
Definition nonneg_num (x : jsnum) : Prop :=
  match x with
  | Fin q => (0 <= q)%Q
  | PInf | NaN => True
  | NInf => False
  end.

(** A rate after the cap: [NaN] or a number between 0 and 200. *)
Definition capped_rate (x : jsnum) : Prop :=
  match x with
  | Fin q => (0 <= q <= 200)%Q
  | NaN => True
  | _ => False
  end.

Lemma jmul_square_nonneg (x : jsnum) : nonneg_num (jmul x x).
Proof.
  destruct x as [q| | |]; simpl; try done.
  destruct (Qlt_le_dec q 0); nra.
Qed.

Lemma jadd_nonneg (x y : jsnum) : nonneg_num x -> nonneg_num y -> nonneg_num (jadd x y).
Proof.
  destruct x as [a| | |], y as [b| | |]; simpl; try done. lra.
Qed.

Lemma sign_of_nonneg (q : Q) : (0 <= q)%Q -> (q ?= 0)%Q = Gt \/ (q ?= 0)%Q = Eq.
Proof.
  intros Hq. destruct (q ?= 0)%Q eqn:E; [by right| |by left].
  apply Qlt_alt in E. lra.
Qed.

Section SqrtNonneg.

Variable sqrtQ : Q -> Q.
Hypothesis sqrtQ_nonneg : forall x, (0 <= sqrtQ x)%Q.

Lemma jsqrt_nonneg (x : jsnum) : nonneg_num x -> nonneg_num (jsqrt sqrtQ x).
Proof.
  destruct x as [q| | |]; simpl; try done.
  intros _. destruct (Qltb q 0); simpl; [done|apply sqrtQ_nonneg].
Qed.

Lemma jsqrt_fin_nonneg (q : Q) : nonneg_num (jsqrt sqrtQ (Fin q)).
Proof.
  simpl. destruct (Qltb q 0); simpl; [done|apply sqrtQ_nonneg].
Qed.

Lemma cap_capped (t : jsnum) :
  nonneg_num t -> capped_rate (if jgt t (Fin 200) then Fin 200 else t).
Proof.
  destruct t as [q| | |]; unfold jgt; simpl; try done.
  intros Hq. destruct (Qltb 200 q) eqn:E; simpl; qbool; lra.
Qed.

Lemma jmul_nonneg (x y : jsnum) : nonneg_num x -> nonneg_num y -> nonneg_num (jmul x y).
Proof.
  destruct x as [a| | |], y as [b| | |]; simpl; try done.
  - nra.
  - intros Ha _. destruct (sign_of_nonneg a Ha) as [-> | ->]; done.
  - intros _ Hb. destruct (sign_of_nonneg b Hb) as [-> | ->]; done.
Qed.

Lemma erosion_total_capped (fl : Q) (sl : jsnum) :
  nonneg_num sl -> capped_rate (erosion_total sqrtQ fl sl).
Proof.
  intros Hsl. unfold erosion_total. apply cap_capped.
  apply jadd_nonneg; [|by apply jmul_nonneg].
  apply jmul_nonneg; [simpl; lra|].
  apply jmul_nonneg; [apply jsqrt_fin_nonneg|done].
Qed.

Lemma getSlope_nonneg (m : Mesh) (h : field) (i : nat) (s : jsnum) :
  getSlope sqrtQ m h !! i = Some s -> nonneg_num s.
Proof.
  unfold getSlope. rewrite list_lookup_fmap.
  destruct (seq 0 (length h) !! i) as [k|]; [|done]. simpl. intros [= <-].
  apply jsqrt_nonneg, jadd_nonneg; apply jmul_square_nonneg.
Qed.

Lemma length_erosionRate (m : Mesh) (h : field) :
  length (erosionRate sqrtQ m h) = length h.
Proof. unfold erosionRate. by rewrite length_fmap, length_seq. Qed.

Lemma erosionRate_capped (m : Mesh) (h : field) (i : nat) (r : jsnum) :
  erosionRate sqrtQ m h !! i = Some r -> capped_rate r.
Proof.
  unfold erosionRate. rewrite list_lookup_fmap.
  destruct (seq 0 (length h) !! i) as [k|] eqn:Ek; [|done]. simpl. intros [= <-].
  apply erosion_total_capped.
  destruct (getSlope sqrtQ m h !! k) as [s|] eqn:Es; simpl; [|done].
  by eapply getSlope_nonneg.
Qed.

Lemma erosionRate_fin_or_nan (m : Mesh) (h : field) :
  Forall fin_or_nan (erosionRate sqrtQ m h).
Proof.
  apply Forall_lookup. intros i r Hr. apply erosionRate_capped in Hr.
  by destruct r.
Qed.

(** X2: for an amount that is not negative and a positive maximal
    erosion rate, [erode] lowers every vertex of finite rate [r] by
    [amount * (r / max)], a quantity between 0 and [amount]; every vertex
    whose rate is the maximum loses [amount], and there is at least one
    (there may be several: the rates are capped at 200).  A vertex whose
    rate is [NaN] gets the height [NaN]. *)
Theorem erode_loss (m : Mesh) (h : field) (amount mx : Q) :
  field_on m h = true -> (0 <= amount)%Q ->
  d3_max (erosionRate sqrtQ m h) = Some (Fin mx) -> (0 < mx)%Q ->
  (forall i hi r, h !! i = Some hi -> erosionRate sqrtQ m h !! i = Some (Fin r) ->
     erode sqrtQ m h amount !! i = Some (Fin (hi + - (amount * (r / mx))))
     /\ (0 <= amount * (r / mx) <= amount)%Q
     /\ ((r == mx)%Q -> (amount * (r / mx) == amount)%Q))
  /\ (forall i, erosionRate sqrtQ m h !! i = Some NaN ->
        erode sqrtQ m h amount !! i = Some NaN)
  /\ (exists k hk, h !! k = Some hk
        /\ erosionRate sqrtQ m h !! k = Some (Fin mx)
        /\ erode sqrtQ m h amount !! k = Some (Fin (hk + - (amount * (mx / mx))))).
Proof.
  intros _ Ham Hmax Hmx.
  pose proof (d3_max_spec _ (erosionRate_fin_or_nan m h)) as Hspec.
  rewrite Hmax in Hspec. destruct Hspec as (mx' & [= <-] & Hin & Hall).
  assert (Hnz : Qeq_bool mx 0 = false) by (apply Qeq_bool_false; lra).
  assert (Hlook : forall i hi r, h !! i = Some hi ->
            erosionRate sqrtQ m h !! i = Some r ->
            erode sqrtQ m h amount !! i
            = Some (jsub (Fin hi) (jmul (Fin amount) (jdiv r (Fin mx))))).
  { intros i hi r Hi Hr. unfold erode. rewrite list_lookup_imap, Hi, Hmax. simpl.
    by rewrite Hr. }
  split_and!.
  - intros i hi r Hi Hr.
    pose proof (erosionRate_capped m h i _ Hr) as Hcap. simpl in Hcap.
    assert (Hle : (r <= mx)%Q).
    { apply Hall. apply list_elem_of_lookup. eauto. }
    assert (Hq : (0 <= r / mx <= 1)%Q).
    { split; [apply Qle_shift_div_l|apply Qle_shift_div_r]; lra. }
    split_and!.
    + rewrite (Hlook i hi (Fin r) Hi Hr). simpl. by rewrite Hnz.
    + nra.
    + nra.
    + intros E. rewrite E. field. lra.
  - intros i Hr.
    assert (Hi : (i < length h)%nat).
    { rewrite <- (length_erosionRate m h). by eapply lookup_lt_Some. }
    destruct (lookup_lt_is_Some_2 h i Hi) as [hi Hhi].
    by rewrite (Hlook i hi NaN Hhi Hr).
  - apply list_elem_of_lookup in Hin as [k Hk].
    assert (Hi : (k < length h)%nat).
    { rewrite <- (length_erosionRate m h). by eapply lookup_lt_Some. }
    destruct (lookup_lt_is_Some_2 h k Hi) as [hk Hhk].
    exists k, hk. split_and!; [done|done|].
    rewrite (Hlook k hk (Fin mx) Hhk Hk). simpl. by rewrite Hnz.
Qed.

End SqrtNonneg.

Lemma sqrt6_nonneg (x : Q) : (0 <= sqrt6 x)%Q.
Proof.
  unfold sqrt6. apply Qle_shift_div_l; [reflexivity|].
  ring_simplify. change 0%Q with (inject_Z 0). rewrite <- Zle_Qle.
  apply Z.sqrt_nonneg.
Qed.

Lemma erode_loss_witness :
  erode sqrt6 k4_mesh [0; 0.01; 0; 0]%Q (1 # 2) !! 3%nat
  = Some (Fin (0 + - ((1 # 2) * (50.010000000000000000000000
                                 / 70.730499899241000000000000))))%Q.
Proof.
  destruct (erode_loss sqrt6 sqrt6_nonneg k4_mesh [0; 0.01; 0; 0]%Q (1 # 2)
              70.730499899241000000000000%Q)
    as (H & _ & _).
  - reflexivity.
  - vm_compute. discriminate.
  - vm_compute. reflexivity.
  - reflexivity.
  - destruct (H 3%nat 0%Q 50.010000000000000000000000%Q) as (He & _ & _).
    + reflexivity.
    + vm_compute. reflexivity.
    + exact He.
Defined.

(** An example of several maximal rates: on the four vertices with the heights 0, 1, 0, 0
    the rates are 200, 0, 200, 200 (three slopes reach the cap), so three
    vertices, not one, lose the whole amount 1/2; and on the flat field every
    rate is 0, the division by the maximal rate is 0/0 and every height
    becomes [NaN]. *)
Lemma erode_several_maximal :
  erosionRate sqrt6 k4_mesh [0; 1; 0; 0]%Q
  = [Fin 200; Fin 0.000000000000000000000000; Fin 200; Fin 200]%Q
  /\ erode sqrt6 k4_mesh [0; 1; 0; 0]%Q (1 # 2)
     = [Fin (-200 # 400);
        Fin (400000000000000000000000000 # 400000000000000000000000000);
        Fin (-200 # 400); Fin (-200 # 400)]%Q
  /\ erode sqrt6 k4_mesh [1; 1; 1; 1]%Q (1 # 2) = [NaN; NaN; NaN; NaN].
Proof. split_and!; vm_compute; reflexivity. Qed.

(** ** fillSinks: the assignments of a pass *)

Section FillSinks.

Variable m : Mesh.
Variable h : field.
Variable eps : Q.

(** One assignment to [newh[i]]: the snap to the true height, or the
    lowering to a neighbour's filled height plus epsilon, each with the
    tests that guard it in the source. *)
Inductive upd (i : nat) (s s' : field) : Prop :=
| upd_snap nb cur hi w :
    h !! i = Some hi -> s !! i = Some cur -> ~ (cur == hi)%Q ->
    nb ∈ neighbours m i -> s !! nb = Some w ->
    (w + eps <= hi)%Q ->
    s' = <[i := hi]> s -> upd i s s'
| upd_lower nb cur hi w :
    h !! i = Some hi -> s !! i = Some cur ->
    nb ∈ neighbours m i -> s !! nb = Some w ->
    (hi < w + eps)%Q -> (w + eps < cur)%Q ->
    s' = <[i := (w + eps)%Q]> s -> upd i s s'.

Definition upd_any (s s' : field) : Prop := exists i, upd i s s'.

(** A loop of the pass either leaves the array and the flag alone, or makes
    at least one assignment and sets the flag. *)
Definition traced (R : relation field) (s : field) (c : bool) (r : field * bool) : Prop :=
  (fst r = s /\ snd r = c) \/ (tc R s (fst r) /\ snd r = true).

Lemma relax_nbs_traced (i : nat) (hi : Q) (nbs : list nat) :
  forall s c cur,
    h !! i = Some hi -> s !! i = Some cur -> ~ (cur == hi)%Q ->
    (forall nb, nb ∈ nbs -> nb ∈ neighbours m i) ->
    traced (upd i) s c (relax_nbs eps hi i nbs s c).
Proof.
  induction nbs as [|nb rest IH]; intros s c cur Hhi Hcur Hne Hsub; simpl.
  - by left.
  - assert (Hnb : nb ∈ neighbours m i) by (apply Hsub; left).
    assert (Hrest : forall nb', nb' ∈ rest -> nb' ∈ neighbours m i)
      by (intros nb' ?; apply Hsub; by right).
    rewrite Hcur. destruct (s !! nb) as [w|] eqn:Hw; [|by eapply IH].
    destruct (Qle_bool (w + eps) hi) eqn:E1; qbool.
    { right. split; [|done]. apply tc_once. simpl. by eapply upd_snap. }
    destruct (Qltb (w + eps) cur && Qltb hi (w + eps)) eqn:E2; [|by eapply IH].
    apply andb_true_iff in E2 as [E2 E3]. qbool.
    assert (Hstep : upd i s (<[i := (w + eps)%Q]> s)) by (by eapply upd_lower).
    assert (Hi : (i < length s)%nat) by (by eapply lookup_lt_Some).
    destruct (IH (<[i := (w + eps)%Q]> s) true (w + eps)%Q) as [[H1 H2]|[H1 H2]];
      try done.
    + by apply list_lookup_insert_eq.
    + lra.
    + right. split; [|done]. rewrite H1. by apply tc_once.
    + right. split; [|done]. by eapply tc_l.
Qed.

Lemma visit_traced (i : nat) (s : field) (c : bool) :
  traced (upd i) s c (visit m h eps i s c).
Proof.
  unfold visit. destruct (s !! i) as [cur|] eqn:Hcur; [|by left].
  destruct (h !! i) as [hi|] eqn:Hhi; [|by left].
  destruct (Qeq_bool cur hi) eqn:E; [by left|]. qbool.
  by eapply relax_nbs_traced.
Qed.

Lemma traced_any (i : nat) (s : field) (c : bool) (r : field * bool) :
  traced (upd i) s c r -> traced upd_any s c r.
Proof.
  intros [H|[H1 H2]]; [by left|right]. split; [|done].
  eapply tc_congruence with (f := fun x => x); [|done]. intros x y Hxy. by exists i.
Qed.

Lemma sweep_traced (ixs : list nat) :
  forall s c, traced upd_any s c (sweep m h eps ixs s c).
Proof.
  induction ixs as [|i rest IH]; intros s c; simpl; [by left|].
  pose proof (traced_any i s c _ (visit_traced i s c)) as Hv.
  destruct (visit m h eps i s c) as [s1 c1].
  specialize (IH s1 c1). unfold traced in *. simpl in Hv.
  destruct Hv as [[-> ->]|[Hv ->]]; [done|].
  destruct IH as [[H1 H2]|[H1 H2]]; right.
  - split; [by rewrite H1|done].
  - split; [by eapply tc_transitive|done].
Qed.

Lemma pass_traced (s : field) : traced upd_any s false (pass m h eps s).
Proof. apply sweep_traced. Qed.

(** *** A pass that changes nothing *)

(** Vertex [i] is at rest: it has its true height, or no neighbour would
    snap or lower it. *)
Definition at_rest (s : field) (i : nat) : Prop :=
  forall cur hi, s !! i = Some cur -> h !! i = Some hi -> ~ (cur == hi)%Q ->
    forall nb w, nb ∈ neighbours m i -> s !! nb = Some w ->
      (hi < w + eps)%Q /\ (cur <= w + eps)%Q.

Lemma relax_nbs_quiet (i : nat) (hi : Q) (nbs : list nat) :
  forall s c s' cur,
    s !! i = Some cur ->
    relax_nbs eps hi i nbs s c = (s', false) ->
    s' = s /\ c = false
    /\ forall nb w, nb ∈ nbs -> s !! nb = Some w -> (hi < w + eps)%Q /\ (cur <= w + eps)%Q.
Proof.
  induction nbs as [|nb rest IH]; intros s c s' cur Hcur; simpl.
  - intros [= <- <-]. split_and!; [done..|]. intros nb w Hnb. by apply elem_of_nil in Hnb.
  - rewrite Hcur. destruct (s !! nb) as [w|] eqn:Hw.
    + destruct (Qle_bool (w + eps) hi) eqn:E1; [done|].
      destruct (Qltb (w + eps) cur && Qltb hi (w + eps)) eqn:E2.
      * intros Hr. assert (Hi : (i < length s)%nat) by (by eapply lookup_lt_Some).
        destruct (IH _ _ _ (w + eps)%Q (list_lookup_insert_eq s i _ Hi) Hr) as (_ & ? & _).
        done.
      * intros Hr. destruct (IH _ _ _ cur Hcur Hr) as (-> & -> & Hall).
        split_and!; [done..|]. intros nb' w' Hnb'.
        apply elem_of_cons in Hnb' as [->|Hnb']; [|by apply Hall].
        rewrite Hw. intros [= <-]. qbool.
        apply andb_false_iff in E2 as [E2|E2]; qbool; lra.
    + intros Hr. destruct (IH _ _ _ cur Hcur Hr) as (-> & -> & Hall).
      split_and!; [done..|]. intros nb' w' Hnb'.
      apply elem_of_cons in Hnb' as [->|Hnb']; [|by apply Hall].
      by rewrite Hw.
Qed.

Lemma visit_quiet (i : nat) (s s' : field) (c : bool) :
  visit m h eps i s c = (s', false) -> s' = s /\ c = false /\ at_rest s i.
Proof.
  unfold visit, at_rest.
  destruct (s !! i) as [cur|] eqn:Hcur; [|by intros [= <- <-]].
  destruct (h !! i) as [hi|] eqn:Hhi; [|by intros [= <- <-]].
  destruct (Qeq_bool cur hi) eqn:E; qbool.
  - intros [= <- <-]. split_and!; [done..|]. by intros ? ? [= <-] [= <-].
  - intros Hr. destruct (relax_nbs_quiet _ _ _ _ _ _ _ Hcur Hr) as (-> & -> & Hall).
    split_and!; [done..|]. intros ? ? [= <-] [= <-] _. apply Hall.
Qed.

Lemma sweep_quiet (ixs : list nat) :
  forall s c s', sweep m h eps ixs s c = (s', false) ->
    s' = s /\ c = false /\ forall i, i ∈ ixs -> at_rest s i.
Proof.
  induction ixs as [|i rest IH]; intros s c s'; simpl.
  - intros [= <- <-]. split_and!; [done..|]. intros i Hi. by apply elem_of_nil in Hi.
  - destruct (visit m h eps i s c) as [s1 c1] eqn:Hv. intros Hr.
    destruct (IH _ _ _ Hr) as (-> & -> & Hall).
    destruct (visit_quiet _ _ _ _ Hv) as (-> & -> & Hi).
    split_and!; [done..|]. intros j Hj.
    apply elem_of_cons in Hj as [->|Hj]; [done|by apply Hall].
Qed.

Lemma pass_quiet (s s' : field) :
  pass m h eps s = (s', false) -> s' = s /\ forall i, at_rest s i.
Proof.
  intros Hp. destruct (sweep_quiet _ _ _ _ Hp) as (-> & _ & Hall).
  split; [done|]. intros i. destruct (decide (i < length h)%nat) as [Hi|Hi].
  - apply Hall, elem_of_seq. lia.
  - intros cur hi _ Hhi. apply lookup_lt_Some in Hhi. lia.
Qed.

(** The field that the loop returns is a fixed point of the pass. *)
Lemma fillSinks_loop_fixpoint (fuel : nat) :
  forall s r, fillSinks_loop m h eps fuel s = Some r -> pass m h eps r = (r, false).
Proof.
  induction fuel as [|fuel IH]; intros s r; simpl; [done|].
  destruct (pass m h eps s) as [s' c] eqn:Hp.
  destruct c; [by apply IH|]. intros [= <-].
  destruct (pass_quiet _ _ Hp) as [-> _]. done.
Qed.

(** More fuel does not change the result. *)
Lemma fillSinks_loop_more_fuel (fuel : nat) :
  forall fuel' s r, (fuel <= fuel')%nat ->
    fillSinks_loop m h eps fuel s = Some r -> fillSinks_loop m h eps fuel' s = Some r.
Proof.
  induction fuel as [|fuel IH]; intros fuel' s r Hle; simpl; [done|].
  destruct fuel' as [|fuel']; [lia|]. simpl.
  destruct (pass m h eps s) as [s' c]. destruct c; [|done].
  apply IH. lia.
Qed.

(** *** What the loop keeps *)

Hypothesis eps_pos : (0 < eps)%Q.
Hypothesis below_sentinel : forall i hi, h !! i = Some hi -> (hi < infinity)%Q.

(** The filled heights stay between the true height and the sentinel, the
    vertices near the edge keep their true height, and every other vertex
    that has left the sentinel has a strictly lower neighbour. *)
Record fill_inv (s : field) : Prop :=
  { inv_len : length s = length h;
    inv_above : forall i hi v, h !! i = Some hi -> s !! i = Some v ->
                  (hi <= v <= infinity)%Q;
    inv_edge : forall i, isnearedge m i = true -> s !! i = h !! i;
    inv_lower : forall i v, isnearedge m i = false -> s !! i = Some v ->
                  (v < infinity)%Q ->
                  exists nb w, nb ∈ neighbours m i /\ s !! nb = Some w /\ (w < v)%Q }.

Lemma fillSinks_init_lookup (i : nat) :
  fillSinks_init m h !! i
  = (fun hi => if isnearedge m i then hi else infinity) <$> h !! i.
Proof. unfold fillSinks_init. by rewrite list_lookup_imap. Qed.

Lemma fill_inv_init : fill_inv (fillSinks_init m h).
Proof.
  split.
  - unfold fillSinks_init. by rewrite length_imap.
  - intros i hi v Hh. rewrite fillSinks_init_lookup, Hh. simpl.
    pose proof (below_sentinel i hi Hh).
    destruct (isnearedge m i); intros [= <-]; lra.
  - intros i Hne. rewrite fillSinks_init_lookup, Hne. by destruct (h !! i).
  - intros i v Hne. rewrite fillSinks_init_lookup, Hne.
    destruct (h !! i); simpl; [|done]. intros [= <-]. lra.
Qed.

(** An assignment writes inside the array, at a vertex that is not near the
    edge, a value below the one it replaces and not below the true
    height, with a neighbour that stays strictly lower. *)
Lemma upd_shape (i : nat) (s s' : field) :
  fill_inv s -> upd i s s' ->
  exists cur hi v nb w,
    s' = <[i := v]> s /\ s !! i = Some cur /\ h !! i = Some hi
    /\ isnearedge m i = false
    /\ (hi <= v)%Q /\ (v < cur)%Q /\ (cur <= infinity)%Q
    /\ (v == hi \/ v == w + eps)%Q
    /\ nb ∈ neighbours m i /\ nb <> i /\ s !! nb = Some w /\ (w < v)%Q.
Proof.
  intros Hinv Hupd.
  assert (Hnear : forall cur hi, s !! i = Some cur -> h !! i = Some hi ->
                    ~ (cur == hi)%Q -> isnearedge m i = false).
  { intros cur hi Hc Hh Hne. destruct (isnearedge m i) eqn:E; [|done].
    rewrite (inv_edge s Hinv i E), Hh in Hc. injection Hc as <-. by destruct Hne. }
  destruct Hupd as [nb cur hi w Hh Hc Hne Hnb Hw Hle ->|nb cur hi w Hh Hc Hnb Hw Hlt1 Hlt2 ->].
  - pose proof (inv_above s Hinv i hi cur Hh Hc) as [H1 H2].
    exists cur, hi, hi, nb, w. split_and!; try done; try lra.
    + by eapply Hnear.
    + intros ->. rewrite Hc in Hw. injection Hw as <-. lra.
  - pose proof (inv_above s Hinv i hi cur Hh Hc) as [H1 H2].
    exists cur, hi, (w + eps)%Q, nb, w. split_and!; try done; try lra.
    + eapply Hnear; [done..|]. lra.
    + intros ->. rewrite Hc in Hw. injection Hw as <-. lra.
Qed.

Lemma upd_inv (i : nat) (s s' : field) : fill_inv s -> upd i s s' -> fill_inv s'.
Proof.
  intros Hinv Hupd.
  destruct (upd_shape i s s' Hinv Hupd)
    as (cur & hi & v & nb & w & -> & Hc & Hh & Hne & Hlo & Hlt & Hinf & _ & Hnb & Hni & Hw & Hwv).
  assert (Hi : (i < length s)%nat) by (by eapply lookup_lt_Some).
  split.
  - rewrite length_insert. apply Hinv.
  - intros j hj vj Hhj. destruct (decide (j = i)) as [->|Hji].
    + rewrite list_lookup_insert_eq by done. intros [= <-].
      rewrite Hh in Hhj. injection Hhj as <-. lra.
    + rewrite list_lookup_insert_ne by done. by apply Hinv.
  - intros j Hj. destruct (decide (j = i)) as [->|Hji]; [congruence|].
    rewrite list_lookup_insert_ne by done. by apply Hinv.
  - intros j vj Hj. destruct (decide (j = i)) as [->|Hji].
    + rewrite list_lookup_insert_eq by done. intros [= <-] _.
      exists nb, w. split_and!; [done| |done]. by rewrite list_lookup_insert_ne.
    + rewrite list_lookup_insert_ne by done. intros Hvj Hlt'.
      destruct (inv_lower s Hinv j vj Hj Hvj Hlt') as (nb' & w' & Hnb' & Hw' & Hlt'').
      destruct (decide (nb' = i)) as [->|Hne'].
      * exists i, v. split_and!; [done|by apply list_lookup_insert_eq|].
        rewrite Hc in Hw'. injection Hw' as <-. lra.
      * exists nb', w'. split_and!; [done| |done]. by rewrite list_lookup_insert_ne.
Qed.

Lemma upd_any_inv (s s' : field) : fill_inv s -> upd_any s s' -> fill_inv s'.
Proof. intros Hinv [i Hupd]. by eapply upd_inv. Qed.

Lemma tc_upd_inv (s s' : field) : fill_inv s -> tc upd_any s s' -> fill_inv s'.
Proof.
  intros Hinv Htc. induction Htc as [x y Hxy|x y z Hxy _ IH].
  - by eapply upd_any_inv.
  - apply IH. by eapply upd_any_inv.
Qed.

Lemma pass_inv (s : field) : fill_inv s -> fill_inv (fst (pass m h eps s)).
Proof.
  intros Hinv. destruct (pass_traced s) as [[-> _]|[Htc _]]; [done|].
  by eapply tc_upd_inv.
Qed.

Lemma fillSinks_loop_inv (fuel : nat) :
  forall s r, fill_inv s -> fillSinks_loop m h eps fuel s = Some r -> fill_inv r.
Proof.
  induction fuel as [|fuel IH]; intros s r Hinv; simpl; [done|].
  pose proof (pass_inv s Hinv) as Hp.
  destruct (pass m h eps s) as [s' c]. simpl in Hp.
  destruct c; [by apply IH|]. by intros [= <-].
Qed.

(** *** Termination

    Every filled height is the sentinel or a true height plus a multiple of
    epsilon below the sentinel: finitely many values.  An assignment
    replaces a filled height by a lower one of these values. *)
















End FillSinks.

(** *** The field that fillSinks returns *)

Lemma epsilon_or_default_pos (eps : Q) : (0 < eps)%Q -> epsilon_or_default (Some eps) = eps.
Proof.
  intros Heps. unfold epsilon_or_default.
  destruct (Qeq_bool eps 0) eqn:E; [|done]. qbool. lra.
Qed.

(** X3: over a field on its mesh, heights below the sentinel and a
    positive epsilon, the field that [fillSinks] returns has the length of the input, every filled
    height lies between the true height and the sentinel, and a vertex near
    the edge keeps its true height. *)
Theorem fillSinks_above_true_height (m : Mesh) (h : field) (eps : Q) (fuel : nat) (r : field) :
  field_on m h = true ->
  (0 < eps)%Q -> (forall i hi, h !! i = Some hi -> (hi < infinity)%Q) ->
  fillSinks fuel m h (Some eps) = Some r ->
  length r = length h
  /\ forall i hi, h !! i = Some hi ->
       exists v, r !! i = Some v /\ (hi <= v <= infinity)%Q
                 /\ (isnearedge m i = true -> v = hi).
Proof.
  intros _ Heps Hlow. unfold fillSinks. rewrite epsilon_or_default_pos by done. intros Hr.
  pose proof (fillSinks_loop_inv m h eps Heps fuel _ r
                (fill_inv_init m h Hlow) Hr) as Hinv.
  split; [apply Hinv|]. intros i hi Hhi.
  destruct (lookup_lt_is_Some_2 r i) as [v Hv].
  { rewrite (inv_len _ _ _ Hinv). by eapply lookup_lt_Some. }
  exists v. split; [done|]. split; [by eapply inv_above|].
  intros Hne. rewrite (inv_edge _ _ _ Hinv i Hne), Hhi in Hv. by injection Hv.
Qed.


(** X5: the field that [fillSinks] returns is at rest, for every epsilon
    and every field: a vertex whose filled height differs from its true
    height is at most epsilon above each of its neighbours, and its true
    height is below each neighbour's filled height plus epsilon. *)
Theorem fillSinks_at_rest (m : Mesh) (h : field) (epsilon : option Q) (fuel : nat)
    (r : field) :
  fillSinks fuel m h epsilon = Some r ->
  forall i v hi, r !! i = Some v -> h !! i = Some hi -> ~ (v == hi)%Q ->
    forall nb w, nb ∈ neighbours m i -> r !! nb = Some w ->
      (hi < w + epsilon_or_default epsilon)%Q /\ (v <= w + epsilon_or_default epsilon)%Q.
Proof.
  unfold fillSinks. intros Hr.
  pose proof (fillSinks_loop_fixpoint m h _ fuel _ r Hr) as Hfix.
  destruct (pass_quiet m h _ r r Hfix) as [_ Hrest]. intros i. apply Hrest.
Qed.


(** X7: over a field on its mesh, when no vertex is near the edge,
    [fillSinks] returns the sentinel at every vertex after one pass: the heights of the field are lost. *)
Theorem fillSinks_without_edge (m : Mesh) (h : field) (eps : Q) :
  field_on m h = true ->
  (0 < eps)%Q -> (forall i hi, h !! i = Some hi -> (hi < infinity)%Q) ->
  (forall i, (i < length h)%nat -> isnearedge m i = false) ->
  fillSinks 1 m h (Some eps) = Some (replicate (length h) infinity).
Proof.
  intros _ Heps Hlow Hnone. unfold fillSinks. rewrite epsilon_or_default_pos by done.
  assert (Hinit : fillSinks_init m h = replicate (length h) infinity).
  { apply list_eq. intros i. rewrite fillSinks_init_lookup.
    destruct (h !! i) as [hi|] eqn:Hhi; simpl.
    - assert (Hi : (i < length h)%nat) by (by eapply lookup_lt_Some).
      rewrite (Hnone i Hi). symmetry. by apply lookup_replicate_2.
    - symmetry. apply lookup_replicate_None. apply lookup_ge_None in Hhi. lia. }
  rewrite Hinit. simpl.
  pose proof (pass_traced m h eps (replicate (length h) infinity)) as Hp.
  destruct (pass m h eps (replicate (length h) infinity)) as [s' c].
  unfold traced in Hp. simpl in Hp.
  destruct Hp as [[-> ->]|[Htc _]]; [done|]. exfalso.
  assert (Hfirst : exists y, upd_any m h eps (replicate (length h) infinity) y).
  { inversion Htc; eauto. }
  destruct Hfirst as (y & i & Hupd).
  rewrite <- Hinit in Hupd.
  destruct (upd_shape m h eps Heps i _ y (fill_inv_init m h Hlow) Hupd)
    as (cur & hi & v & nb & w & _ & Hc & Hh & _ & Hlo & Hlt & Hinf & Hv & _ & _ & Hw & Hwv).
  rewrite Hinit in Hc, Hw.
  apply lookup_replicate in Hc as [-> _]. apply lookup_replicate in Hw as [-> _].
  lra.
Qed.

(** Examples: the four vertices with the first one near the edge, at the
    height 3; the three others are filled up to 3 + epsilon. *)
Ltac all_heights :=
  let i := fresh "i" in let hi := fresh "hi" in let Hi := fresh "Hi" in
  intros i hi Hi; apply list_elem_of_lookup_2 in Hi;
  repeat (apply elem_of_cons in Hi as [->|Hi]; [reflexivity|]);
  by apply elem_of_nil in Hi.

Lemma fillSinks_example :
  fillSinks 2 k4_near_mesh [3; 2; 1; 1 # 2]%Q (Some (1 # 10)%Q)
  = Some [3; 3 + (1 # 10); 3 + (1 # 10); 3 + (1 # 10)]%Q.
Proof. reflexivity. Qed.

Lemma fillSinks_above_true_height_witness :
  length [3; 3 + (1 # 10); 3 + (1 # 10); 3 + (1 # 10)]%Q = 4%nat
  /\ forall i hi, [3; 2; 1; 1 # 2]%Q !! i = Some hi ->
       exists v, [3; 3 + (1 # 10); 3 + (1 # 10); 3 + (1 # 10)]%Q !! i = Some v
                 /\ (hi <= v <= infinity)%Q
                 /\ (isnearedge k4_near_mesh i = true -> v = hi).
Proof.
  apply (fillSinks_above_true_height k4_near_mesh [3; 2; 1; 1 # 2]%Q (1 # 10) 2);
    [reflexivity|reflexivity|all_heights|reflexivity].
Defined.


Lemma fillSinks_at_rest_witness :
  (2 < 3 + epsilon_or_default (Some (1 # 10)))%Q
  /\ (3 + (1 # 10) <= 3 + epsilon_or_default (Some (1 # 10)))%Q.
Proof.
  apply (fillSinks_at_rest k4_near_mesh [3; 2; 1; 1 # 2]%Q (Some (1 # 10)%Q) 2
           [3; 3 + (1 # 10); 3 + (1 # 10); 3 + (1 # 10)]%Q eq_refl
           1%nat (3 + (1 # 10))%Q 2%Q eq_refl eq_refl)
    with (nb := 0%nat).
  - intros H. vm_compute in H. discriminate.
  - left.
  - reflexivity.
Defined.


Lemma fillSinks_without_edge_witness :
  fillSinks 1 k4_mesh [3; 2; 1; 0]%Q (Some (1 # 10)%Q)
  = Some (replicate (length [3; 2; 1; 0]%Q) infinity).
Proof.
  apply (fillSinks_without_edge k4_mesh [3; 2; 1; 0]%Q (1 # 10));
    [reflexivity|reflexivity|all_heights|].
  intros i Hi. do 4 (destruct i as [|i]; [reflexivity|]). simpl in Hi. lia.
Defined.

(** ** getTerritories *)

Section Territories.

Variable sqrtQ : Q -> Q.
Variable dequeue : list entry -> option (entry * list entry).
Variable m : Mesh.
Variable h : field.
Variable flux : list Q.

(** The contract of the priority queue that the proofs use: taking an
    entry out neither loses nor invents an entry, and a queue that is not
    empty gives one.  Which entry comes out plays no part below. *)
Hypothesis dequeue_perm :
  forall q u q', dequeue q = Some (u, q') -> q ≡ₚ u :: q'.
Hypothesis dequeue_some : forall q, q <> [] -> is_Some (dequeue q).

Lemma expand_elem (u : entry) (terr : gmap nat nat) (nbs : list nat) :
  forall q e,
    e ∈ foldl (fun q v =>
                 match terr !! v with
                 | Some _ => q
                 | None => q ++ [{| score := jadd (score u) (weight sqrtQ m h flux (target u) v);
                                    city := city u; target := v |}]
                 end) q nbs
    <-> e ∈ q \/ exists v, v ∈ nbs /\ terr !! v = None
                    /\ e = {| score := jadd (score u) (weight sqrtQ m h flux (target u) v);
                              city := city u; target := v |}.
Proof.
  induction nbs as [|v nbs IH]; intros q e; simpl.
  - split; [by left|]. intros [?|(v & Hv & _)]; [done|by apply elem_of_nil in Hv].
  - rewrite IH. destruct (terr !! v) eqn:Hv.
    + split.
      * intros [?|(v' & ? & ? & ?)]; [by left|right]. exists v'. split_and!; [by right|done..].
      * intros [?|(v' & Hv' & Hn & He)]; [by left|].
        apply elem_of_cons in Hv' as [->|Hv']; [congruence|]. right. by exists v'.
    + rewrite elem_of_app, list_elem_of_singleton. split.
      * intros [[?| ->]|(v' & ? & ? & ?)]; [by left|right..].
        -- exists v. split_and!; [by left|done..].
        -- exists v'. split_and!; [by right|done..].
      * intros [?|(v' & Hv' & Hn & He)]; [by left; left|].
        apply elem_of_cons in Hv' as [->|Hv']; [by left; right|]. right. by exists v'.
Qed.


(** *** A vertex never changes its owner *)

Lemma terr_step_owner (terr terr' : gmap nat nat) (q q' : list entry) :
  terr_step sqrtQ dequeue m h flux terr q = Some (terr', q') ->
  (forall v c, terr !! v = Some c -> terr' !! v = Some c)
  /\ (forall u q1, dequeue q = Some (u, q1) -> is_Some (terr !! target u) ->
        terr' = terr /\ q' = q1).
Proof.
  unfold terr_step. destruct (dequeue q) as [[u q1]|] eqn:Hd; [|done].
  destruct (terr !! target u) as [o|] eqn:Ht.
  - intros [= <- <-]. split; [done|]. by intros ? ? [= <- <-] _.
  - intros [= <- <-]. split.
    + intros v c Hv. rewrite lookup_insert_ne; [done|]. intros <-. congruence.
    + intros ? ? [= <- <-] [? ?]. congruence.
Qed.

Lemma terr_loop_keeps_owner (fuel : nat) :
  forall terr q r, terr_loop sqrtQ dequeue m h flux fuel terr q = Some r ->
    forall v c, terr !! v = Some c -> r !! v = Some c.
Proof.
  induction fuel as [|fuel IH]; intros terr q r; destruct q as [|e q]; simpl;
    try done; try (by intros [= <-]).
  destruct (terr_step sqrtQ dequeue m h flux terr (e :: q)) as [[terr' q']|] eqn:Hs; [|done].
  intros Hr v c Hv. eapply IH; [done|].
  by apply (terr_step_owner _ _ _ _ Hs).
Qed.

(** *** The territories and the queue *)

Variable caps : list nat.

(** Vertex [v] is joined to the capital [c] by a path of neighbours that
    belong to [c], ends included. *)
Inductive owned_path (terr : gmap nat nat) (c : nat) : nat -> Prop :=
| op_capital : c ∈ caps -> terr !! c = Some c -> owned_path terr c c
| op_step u v : owned_path terr c u -> v ∈ neighbours m u -> terr !! v = Some c ->
                owned_path terr c v.

(** What the loop keeps: the capitals own themselves, a territory is
    connected, an entry leads from the territory of its city to its target,
    and a neighbour of an owned vertex is owned or awaited in the queue. *)
Record terr_inv (terr : gmap nat nat) (q : list entry) : Prop :=
  { ti_caps : forall c, c ∈ caps -> terr !! c = Some c;
    ti_path : forall v c, terr !! v = Some c -> owned_path terr c v;
    ti_queue : forall e, e ∈ q ->
                 exists u, owned_path terr (city e) u /\ target e ∈ neighbours m u;
    ti_cover : forall u c v, terr !! u = Some c -> v ∈ neighbours m u ->
                 is_Some (terr !! v) \/ exists e, e ∈ q /\ target e = v }.

Lemma owned_path_insert (terr : gmap nat nat) (t o c v : nat) :
  terr !! t = None -> owned_path terr c v -> owned_path (<[t := o]> terr) c v.
Proof.
  intros Ht Hp. induction Hp as [Hc Hcc|u v _ IH Hv Hvc].
  - apply op_capital; [done|]. rewrite lookup_insert_ne; [done|]. intros <-. congruence.
  - eapply op_step; [done..|]. rewrite lookup_insert_ne; [done|]. intros <-. congruence.
Qed.

Lemma terr_step_inv (terr terr' : gmap nat nat) (q q' : list entry) :
  terr_inv terr q ->
  terr_step sqrtQ dequeue m h flux terr q = Some (terr', q') ->
  terr_inv terr' q'.
Proof.
  intros Hinv. unfold terr_step.
  destruct (dequeue q) as [[u q1]|] eqn:Hd; [|done].
  pose proof (dequeue_perm q u q1 Hd) as Hperm.
  assert (Hin : forall e, e ∈ q <-> e = u \/ e ∈ q1).
  { intros e. rewrite Hperm. apply elem_of_cons. }
  destruct (terr !! target u) as [o|] eqn:Ht; intros [= <- <-].
  - split.
    + apply Hinv.
    + apply Hinv.
    + intros e He. apply (ti_queue _ _ Hinv). apply Hin. by right.
    + intros u1 c v Hu1 Hv.
      destruct (ti_cover _ _ Hinv u1 c v Hu1 Hv) as [?|(e & He & <-)]; [by left|].
      apply Hin in He as [->|He]; [left; by rewrite Ht|right; by exists e].
  - assert (Hu : u ∈ q) by (apply Hin; by left).
    destruct (ti_queue _ _ Hinv u Hu) as (u0 & Hp0 & Hnb0).
    assert (Hpt : owned_path (<[target u := city u]> terr) (city u) (target u)).
    { eapply op_step; [by apply owned_path_insert|done|]. by rewrite lookup_insert_eq. }
    split.
    + intros c Hc. rewrite lookup_insert_ne; [by apply Hinv|].
      intros <-. rewrite (ti_caps _ _ Hinv _ Hc) in Ht. done.
    + intros v c. destruct (decide (v = target u)) as [->|Hne].
      * rewrite lookup_insert_eq. by intros [= <-].
      * rewrite lookup_insert_ne by done. intros Hv.
        apply owned_path_insert; [done|]. by apply Hinv.
    + intros e He. unfold expand in He. apply expand_elem in He as [He|(v & Hv & _ & ->)].
      * destruct (ti_queue _ _ Hinv e) as (u1 & Hp1 & Hnb1); [apply Hin; by right|].
        exists u1. split; [by apply owned_path_insert|done].
      * exists (target u). by split.
    + intros u1 c v. destruct (decide (u1 = target u)) as [->|Hne].
      * intros _ Hv. destruct (<[target u := city u]> terr !! v) as [o|] eqn:Hov; [by left|].
        right.
        exists {| score := jadd (score u) (weight sqrtQ m h flux (target u) v);
                  city := city u; target := v |}.
        split; [|done]. unfold expand. apply expand_elem. right. by exists v.
      * rewrite lookup_insert_ne by done. intros Hu1 Hv.
        destruct (ti_cover _ _ Hinv u1 c v Hu1 Hv) as [[o Ho]|(e & He & <-)].
        -- left. destruct (decide (v = target u)) as [->|Hne'].
           ++ by rewrite lookup_insert_eq.
           ++ rewrite lookup_insert_ne by done. by rewrite Ho.
        -- apply Hin in He as [->|He].
           ++ left. by rewrite lookup_insert_eq.
           ++ right. exists e. split; [|done]. unfold expand. apply expand_elem. by left.
Qed.

Lemma terr_loop_inv (fuel : nat) :
  forall terr q r, terr_inv terr q ->
    terr_loop sqrtQ dequeue m h flux fuel terr q = Some r -> terr_inv r [].
Proof.
  induction fuel as [|fuel IH]; intros terr q r Hinv; destruct q as [|e q]; simpl;
    try done; try (by intros [= <-]).
  destruct (terr_step sqrtQ dequeue m h flux terr (e :: q)) as [[terr' q']|] eqn:Hs; [|done].
  apply IH. by eapply terr_step_inv.
Qed.

(** *** The loop ends *)







(** *** The seeding of the capitals *)

Lemma seed_queue (c : nat) (q : list entry) (nbs : list nat) :
  foldl (fun q nb => q ++ [{| score := weight sqrtQ m h flux c nb; city := c; target := nb |}])
        q nbs
  = q ++ ((fun nb => {| score := weight sqrtQ m h flux c nb; city := c; target := nb |})
            <$> nbs).
Proof.
  revert q. induction nbs as [|nb nbs IH]; intros q; simpl.
  - by rewrite app_nil_r.
  - rewrite IH. by rewrite <- app_assoc.
Qed.

Lemma seed_inv (l : list nat) :
  let st := foldl (seed sqrtQ m h flux) (∅, []) l in
  (forall c, c ∈ l -> fst st !! c = Some c)
  /\ (forall v c, fst st !! v = Some c -> v = c /\ c ∈ l)
  /\ (forall e, e ∈ snd st -> city e ∈ l /\ target e ∈ neighbours m (city e))
  /\ (forall c v, c ∈ l -> v ∈ neighbours m c -> exists e, e ∈ snd st /\ target e = v).
Proof.
  induction l as [|c l IH] using rev_ind; simpl.
  - split_and!.
    + intros c Hc. by apply elem_of_nil in Hc.
    + intros v c Hv. by rewrite lookup_empty in Hv.
    + intros e He. by apply elem_of_nil in He.
    + intros c v Hc. by apply elem_of_nil in Hc.
  - rewrite foldl_snoc. simpl in IH.
    destruct (foldl (seed sqrtQ m h flux) (∅, []) l) as [terr q].
    destruct IH as (S1 & S2 & S3 & S4). unfold seed. simpl in *. rewrite seed_queue.
    split_and!.
    + intros c' Hc'. apply elem_of_app in Hc' as [Hc'|Hc'].
      * destruct (decide (c' = c)) as [->|Hne]; [by rewrite lookup_insert_eq|].
        rewrite lookup_insert_ne by done. by apply S1.
      * apply list_elem_of_singleton in Hc' as ->. by rewrite lookup_insert_eq.
    + intros v c'. destruct (decide (v = c)) as [->|Hne].
      * rewrite lookup_insert_eq. intros [= <-]. split; [done|].
        apply elem_of_app. right. by apply list_elem_of_singleton.
      * rewrite lookup_insert_ne by done. intros Hv.
        destruct (S2 v c' Hv) as [-> ?]. split; [done|]. apply elem_of_app. by left.
    + intros e He. apply elem_of_app in He as [He|He].
      * destruct (S3 e He). split; [|done]. apply elem_of_app. by left.
      * apply list_elem_of_fmap in He as (nb & -> & Hnb). simpl. split; [|done].
        apply elem_of_app. right. by apply list_elem_of_singleton.
    + intros c' v Hc' Hv. apply elem_of_app in Hc' as [Hc'|Hc'].
      * destruct (S4 c' v Hc' Hv) as (e & He & <-). exists e. split; [|done].
        apply elem_of_app. by left.
      * apply list_elem_of_singleton in Hc' as ->.
        exists {| score := weight sqrtQ m h flux c v; city := c; target := v |}.
        split; [|done]. apply elem_of_app. right. apply list_elem_of_fmap. by exists v.
Qed.

Lemma seed_terr_inv :
  let st := foldl (seed sqrtQ m h flux) (∅, []) caps in terr_inv (fst st) (snd st).
Proof.
  pose proof (seed_inv caps) as Hs. simpl in *.
  destruct (foldl (seed sqrtQ m h flux) (∅, []) caps) as [terr q].
  destruct Hs as (S1 & S2 & S3 & S4). simpl in *. split.
  - done.
  - intros v c Hv. destruct (S2 v c Hv) as [-> Hc]. by apply op_capital.
  - intros e He. destruct (S3 e He) as [Hc Ht]. exists (city e). split; [|done].
    apply op_capital; [done|]. by apply S1.
  - intros u c v Hu Hv. destruct (S2 u c Hu) as [-> Hc]. right. by apply (S4 c v).
Qed.

Lemma owned_path_reach (terr : gmap nat nat) (c v : nat) :
  owned_path terr c v -> c ∈ caps /\ rtc (fun u w => w ∈ neighbours m u) c v.
Proof.
  induction 1 as [Hc _|u v _ [IH1 IH2] Hv _]; [done|].
  split; [done|]. by eapply rtc_r.
Qed.

End Territories.

(** *** The territories that getTerritories returns *)

(** X8: a turn of the loop of [getTerritories] leaves every owner in place: a
    vertex that has an owner keeps it, whatever entry the queue gives. An
    entry whose target has an owner is dropped: the territory map is the
    same after the turn. *)
Theorem terr_step_keeps_owner (sqrtQ : Q -> Q)
    (dequeue : list entry -> option (entry * list entry))
    (m : Mesh) (h : field) (flux : list Q)
    (terr terr' : gmap nat nat) (q q' : list entry) :
  terr_step sqrtQ dequeue m h flux terr q = Some (terr', q') ->
  (forall v c, terr !! v = Some c -> terr' !! v = Some c)
  /\ (forall u q1, dequeue q = Some (u, q1) -> is_Some (terr !! target u) ->
        terr' = terr /\ q' = q1).
Proof. apply terr_step_owner. Qed.

(** X9: in the map that [getTerritories] returns every one of the first
    [min(nterrs, cities.length)] cities owns itself, and every vertex with an
    owner is joined to that owner, one of those capitals, by a path of
    neighbours that all belong to the same owner: a territory is connected
    and holds its capital. *)
Theorem getTerritories_connected (sqrtQ : Q -> Q)
    (dequeue : list entry -> option (entry * list entry))
    (fuel : nat) (m : Mesh) (h : field) (cities : list nat) (nterrs : nat)
    (r : gmap nat nat) :
  (forall q u q', dequeue q = Some (u, q') -> q ≡ₚ u :: q') ->
  field_on m h = true -> Forall (fun c => (c < length (vxs m))%nat) cities ->
  getTerritories sqrtQ dequeue fuel m h cities nterrs = Some r ->
  (forall c, c ∈ capitals cities nterrs -> r !! c = Some c)
  /\ (forall v c, r !! v = Some c ->
        c ∈ capitals cities nterrs
        /\ owned_path m (capitals cities nterrs) r c v).
Proof.
  intros Hperm _ _ Hr. unfold getTerritories in Hr.
  pose proof (seed_terr_inv sqrtQ m h (getFlux m h) (capitals cities nterrs)) as Hseed.
  simpl in Hseed.
  pose proof (terr_loop_inv sqrtQ dequeue m h (getFlux m h) Hperm
                (capitals cities nterrs) fuel _ _ r Hseed Hr) as Hinv.
  split; [apply Hinv|]. intros v c Hv.
  pose proof (ti_path _ _ _ _ Hinv v c Hv) as Hp. split; [|done].
  by destruct (owned_path_reach m _ _ _ _ Hp).
Qed.

(** X10: the map that [getTerritories] returns gives an owner to every
    vertex that a path of neighbours joins to a capital, and to no other
    vertex: a vertex out of reach of the capitals stays without owner. *)
Theorem getTerritories_reach (sqrtQ : Q -> Q)
    (dequeue : list entry -> option (entry * list entry))
    (fuel : nat) (m : Mesh) (h : field) (cities : list nat) (nterrs : nat)
    (r : gmap nat nat) (v : nat) :
  (forall q u q', dequeue q = Some (u, q') -> q ≡ₚ u :: q') ->
  field_on m h = true -> Forall (fun c => (c < length (vxs m))%nat) cities ->
  getTerritories sqrtQ dequeue fuel m h cities nterrs = Some r ->
  is_Some (r !! v)
  <-> exists c, c ∈ capitals cities nterrs /\ rtc (fun u w => w ∈ neighbours m u) c v.
Proof.
  intros Hperm _ _ Hr. unfold getTerritories in Hr.
  pose proof (seed_terr_inv sqrtQ m h (getFlux m h) (capitals cities nterrs)) as Hseed.
  simpl in Hseed.
  pose proof (terr_loop_inv sqrtQ dequeue m h (getFlux m h) Hperm
                (capitals cities nterrs) fuel _ _ r Hseed Hr) as Hinv.
  split.
  - intros [c Hc]. exists c. eapply owned_path_reach. by apply Hinv.
  - intros (c & Hc & Hreach). revert v Hreach. apply rtc_ind_r.
    + exists c. by apply Hinv.
    + intros u w _ Huw [o Ho].
      destruct (ti_cover _ _ _ _ Hinv u o w Ho Huw) as [?|(e & He & _)]; [done|].
      by apply elem_of_nil in He.
Qed.


(** The queue of the examples keeps the contract. *)
Lemma extract_min_perm (r : list entry) :
  forall e mn rest, extract_min e r = (mn, rest) -> e :: r ≡ₚ mn :: rest.
Proof.
  induction r as [|e' r IH]; intros e mn rest; simpl.
  - by intros [= <- <-].
  - destruct (extract_min e' r) as [mn' rest'] eqn:E. specialize (IH _ _ _ E).
    destruct (jlt (score mn') (score e)); intros [= <- <-].
    + rewrite IH. apply perm_swap.
    + by rewrite IH.
Qed.

Lemma dequeue_min_perm (q : list entry) (u : entry) (q' : list entry) :
  dequeue_min q = Some (u, q') -> q ≡ₚ u :: q'.
Proof.
  destruct q as [|e r]; simpl; [done|]. intros [= H]. by apply extract_min_perm.
Qed.


(** Two islands: the vertices 0, 1, 2 are adjacent to each other, and so are
    the vertices 3 and 4. *)
Definition islands_mesh : Mesh :=
  {| pts := [];
     vxs := [(0, 0); (1 # 10, 0); (0, 1 # 10); (3 # 10, 3 # 10); (4 # 10, 3 # 10)]%Q;
     adj := [[1; 2]; [0; 2]; [0; 1]; [4]; [3]]%nat;
     tris := [[]; []; []; []; []];
     edges := [];
     extent := {| width := 1; height := 1 |} |}.

Definition islands_terr : gmap nat nat := <[2%nat := 0%nat]> (<[1%nat := 0%nat]> {[0%nat := 0%nat]}).

Lemma islands_territories :
  getTerritories sqrt6 dequeue_min 10 islands_mesh [1; 1; 1; 1; 1]%Q [0; 3]%nat 1
  = Some islands_terr.
Proof. vm_compute. reflexivity. Qed.

Lemma terr_step_keeps_owner_witness :
  (<[1%nat := 0%nat]> ({[0%nat := 0%nat]} : gmap nat nat)) !! 0%nat = Some 0%nat.
Proof.
  pose (e := {| score := Fin 1; city := 0%nat; target := 1%nat |}).
  pose (flux := getFlux islands_mesh [1; 1; 1; 1; 1]%Q).
  destruct (terr_step_keeps_owner sqrt6 dequeue_min islands_mesh [1; 1; 1; 1; 1]%Q flux
              {[0%nat := 0%nat]} (<[1%nat := 0%nat]> {[0%nat := 0%nat]}) [e]
              (expand sqrt6 islands_mesh [1; 1; 1; 1; 1]%Q flux e
                 (<[1%nat := 0%nat]> {[0%nat := 0%nat]}) []))
    as [H _].
  - reflexivity.
  - apply H. reflexivity.
Defined.

Lemma getTerritories_connected_witness :
  (forall c, c ∈ capitals [0; 3]%nat 1 -> islands_terr !! c = Some c)
  /\ (forall v c, islands_terr !! v = Some c ->
        c ∈ capitals [0; 3]%nat 1
        /\ owned_path islands_mesh (capitals [0; 3]%nat 1) islands_terr c v).
Proof.
  apply (getTerritories_connected sqrt6 dequeue_min 10 islands_mesh [1; 1; 1; 1; 1]%Q).
  - apply dequeue_min_perm.
  - reflexivity.
  - repeat (apply Forall_cons_2; [simpl; lia|]). apply Forall_nil_2.
  - apply islands_territories.
Defined.

Lemma getTerritories_reach_witness :
  is_Some (islands_terr !! 3%nat)
  <-> exists c, c ∈ capitals [0; 3]%nat 1
                /\ rtc (fun u w => w ∈ neighbours islands_mesh u) c 3%nat.
Proof.
  apply (getTerritories_reach sqrt6 dequeue_min 10 islands_mesh [1; 1; 1; 1; 1]%Q).
  - apply dequeue_min_perm.
  - reflexivity.
  - repeat (apply Forall_cons_2; [simpl; lia|]). apply Forall_nil_2.
  - apply islands_territories.
Defined.


(** ** The range of slopes, rates and weights *)





(** ** downhill and findSinks *)

(** The loop of [downfrom] over the neighbours, from the state
    [(best, besth)]. *)
Definition lowest (h : field) (st : Z * Q) (nbs : list nat) : Z * Q :=
  foldl (fun '(best, besth) nb =>
           match h !! nb with
           | Some v => if Qltb v besth then (Z.of_nat nb, v) else (best, besth)
           | None => (best, besth)
           end) st nbs.

Lemma lowest_spec (h : field) (nbs : list nat) : forall best besth,
  let r := lowest h (best, besth) nbs in
  (forall nb v, nb ∈ nbs -> h !! nb = Some v -> (snd r <= v)%Q)
  /\ (r = (best, besth)
      \/ exists j, fst r = Z.of_nat j /\ j ∈ nbs /\ h !! j = Some (snd r)
                   /\ (snd r < besth)%Q).
Proof.
  induction nbs as [|nb rest IH]; intros best besth; simpl.
  - split; [|by left]. intros nb v Hnb. by apply elem_of_nil in Hnb.
  - assert (Hkeep : forall v, h !! nb = Some v -> (besth <= v)%Q ->
              let r := lowest h (best, besth) rest in
              (forall nb' v', nb' ∈ nb :: rest -> h !! nb' = Some v' -> (snd r <= v')%Q)
              /\ (r = (best, besth)
                  \/ exists j, fst r = Z.of_nat j /\ j ∈ nb :: rest /\ h !! j = Some (snd r)
                               /\ (snd r < besth)%Q)).
    { intros v Hv Hle. destruct (IH best besth) as [H1 H2]. simpl. split.
      - intros nb' v' Hnb' Hv'. apply elem_of_cons in Hnb' as [->|Hnb']; [|by eapply H1].
        rewrite Hv in Hv'. injection Hv' as <-.
        destruct H2 as [->|(j & _ & _ & _ & Hlt)]; simpl; lra.
      - destruct H2 as [?|(j & ? & ? & ? & ?)]; [by left|right].
        exists j. split_and!; [done|by right|done..]. }
    destruct (h !! nb) as [v|] eqn:Hv.
    + destruct (Qltb v besth) eqn:E; qbool; [|by apply (Hkeep v)].
      destruct (IH (Z.of_nat nb) v) as [H1 H2]. fold (lowest h (Z.of_nat nb, v) rest).
      split.
      * intros nb' v' Hnb' Hv'. apply elem_of_cons in Hnb' as [->|Hnb']; [|by eapply H1].
        rewrite Hv in Hv'. injection Hv' as <-.
        destruct H2 as [->|(j & _ & _ & _ & Hlt)]; simpl; lra.
      * right. destruct H2 as [->|(j & ? & ? & ? & ?)].
        -- exists nb. simpl. split_and!; [done|by left|done..].
        -- exists j. split_and!; [done|by right|done|lra].
    + destruct (IH best besth) as [H1 H2]. fold (lowest h (best, besth) rest). split.
      * intros nb' v' Hnb' Hv'. apply elem_of_cons in Hnb' as [->|Hnb']; [congruence|].
        by eapply H1.
      * destruct H2 as [?|(j & ? & ? & ? & ?)]; [by left|right].
        exists j. split_and!; [done|by right|done..].
Qed.

Lemma downfrom_lowest (m : Mesh) (h : field) (i : nat) (hi : Q) :
  h !! i = Some hi ->
  (isedge m i = true -> downfrom m h i = (-2)%Z)
  /\ (isedge m i = false ->
      (downfrom m h i = (-1)%Z
       /\ forall nb v, nb ∈ neighbours m i -> h !! nb = Some v -> (hi <= v)%Q)
      \/ (exists j vj, downfrom m h i = Z.of_nat j /\ j ∈ neighbours m i
            /\ h !! j = Some vj /\ (vj < hi)%Q
            /\ forall nb v, nb ∈ neighbours m i -> h !! nb = Some v -> (vj <= v)%Q)).
Proof.
  intros Hhi. unfold downfrom. split; intros He; rewrite He; [done|]. rewrite Hhi.
  destruct (lowest_spec h (neighbours m i) (-1)%Z hi) as [H1 H2].
  fold (lowest h ((-1)%Z, hi) (neighbours m i)).
  destruct H2 as [Hr|(j & Hj & Hin & Hv & Hlt)].
  - left. rewrite Hr in *. split; [done|]. apply H1.
  - right. exists j, (snd (lowest h ((-1)%Z, hi) (neighbours m i))). split_and!; done.
Qed.



(** *** findSinks *)






Lemma downhill_lookup (m : Mesh) (h : field) (i : nat) :
  (i < length h)%nat -> downhill m h !! i = Some (downfrom m h i).
Proof.
  intros Hi. unfold downhill. rewrite list_lookup_fmap, lookup_seq_lt by done. done.
Qed.




(** ** makeMesh: what every mesh satisfies *)

(** [j] stands in the adjacency list of [k]. *)
Definition has_nb (a : list (list nat)) (k j : nat) : Prop :=
  exists l, a !! k = Some l /\ j ∈ l.

Lemma push_at_length {A} (i : nat) (x : A) (a : list (list A)) :
  (i <= length a)%nat -> length (push_at i x a) = Nat.max (length a) (S i).
Proof.
  intros Hi. unfold push_at. destruct (i <? length a)%nat eqn:E.
  - apply Nat.ltb_lt in E. rewrite length_alter. lia.
  - apply Nat.ltb_ge in E. rewrite !length_app, length_replicate. simpl. lia.
Qed.

Lemma push_at_lookup {A} (i : nat) (x : A) (a : list (list A)) (k : nat) :
  (i <= length a)%nat ->
  push_at i x a !! k = if decide (k = i) then Some (default [] (a !! i) ++ [x]) else a !! k.
Proof.
  intros Hi. unfold push_at. destruct (i <? length a)%nat eqn:E.
  - apply Nat.ltb_lt in E. destruct (decide (k = i)) as [->|Hne].
    + rewrite list_lookup_alter_eq. destruct (lookup_lt_is_Some_2 a i E) as [l ->]. done.
    + by rewrite list_lookup_alter_ne.
  - apply Nat.ltb_ge in E. assert (i = length a) as -> by lia.
    rewrite Nat.sub_diag. simpl. destruct (decide (k = length a)) as [->|Hne].
    + rewrite lookup_app_r by lia. rewrite Nat.sub_diag. simpl.
      by rewrite lookup_ge_None_2 by lia.
    + destruct (decide (k < length a)%nat).
      * by rewrite lookup_app_l.
      * rewrite !lookup_ge_None_2; [done|lia|rewrite length_app; simpl; lia].
Qed.

Lemma push_at_has_nb (i x : nat) (a : list (list nat)) (k j : nat) :
  (i <= length a)%nat ->
  has_nb (push_at i x a) k j <-> has_nb a k j \/ (k = i /\ j = x).
Proof.
  intros Hi. unfold has_nb. rewrite push_at_lookup by done.
  destruct (decide (k = i)) as [->|Hne].
  - split.
    + intros (l & [= <-] & Hj). apply elem_of_app in Hj as [Hj|Hj].
      * left. destruct (a !! i) as [l|]; [by exists l|by apply elem_of_nil in Hj].
      * right. by apply list_elem_of_singleton in Hj.
    + intros [(l & Hl & Hj)|[_ ->]]; eexists; (split; [done|]).
      * rewrite Hl. apply elem_of_app. by left.
      * apply elem_of_app. right. by apply list_elem_of_singleton.
  - split; [by left|]. intros [?|[? _]]; done.
Qed.

Lemma push_new_at_length (i : nat) (x : site) (t : list (list site)) :
  (i <= length t)%nat -> length (push_new_at i x t) = Nat.max (length t) (S i).
Proof.
  intros Hi. unfold push_new_at. destruct (i <? length t)%nat eqn:E.
  - apply Nat.ltb_lt in E. rewrite length_alter. lia.
  - apply Nat.ltb_ge in E. rewrite !length_app, length_replicate. simpl. lia.
Qed.

Lemma push_sites_length (i : nat) (e : VEdge) (t : list (list site)) :
  (i <= length t)%nat -> length (push_sites i e t) = Nat.max (length t) (S i).
Proof.
  intros Hi. unfold push_sites. destruct (e_right e).
  - rewrite push_new_at_length; rewrite push_new_at_length; lia.
  - by rewrite push_new_at_length.
Qed.

Lemma point_eqb_sym (p q : point) : point_eqb p q = point_eqb q p.
Proof.
  unfold point_eqb.
  assert (H : forall a b, Qeq_bool a b = Qeq_bool b a).
  { intros a b. destruct (Qeq_bool a b) eqn:E1, (Qeq_bool b a) eqn:E2; try done; qbool.
    - destruct E2. by symmetry.
    - destruct E1. by symmetry. }
  by rewrite (H (fst p)), (H (snd p)).
Qed.

Lemma vxid_app (vxids : list (point * nat)) (p0 : point) (n : nat) (p : point) :
  vxid (vxids ++ [(p0, n)]) p
  = match vxid vxids p with
    | Some i => Some i
    | None => if point_eqb p0 p then Some n else None
    end.
Proof.
  induction vxids as [|[q i] r IH]; simpl; [done|].
  by destruct (point_eqb q p).
Qed.

(** What the loop of [makeMesh] keeps. *)
Record mesh_inv (a : MeshAcc) : Prop :=
  { mi_found : forall p i, vxid (a_vxids a) p = Some i ->
                 exists q, a_vxs a !! i = Some q /\ point_eqb q p = true;
    mi_fresh : forall p, vxid (a_vxids a) p = None ->
                 forall q, q ∈ a_vxs a -> point_eqb q p = false;
    mi_distinct : forall i j p q, a_vxs a !! i = Some p -> a_vxs a !! j = Some q ->
                    point_eqb p q = true -> i = j;
    mi_adj_len : length (a_adj a) = length (a_vxs a);
    mi_tris_len : length (a_tris a) = length (a_vxs a);
    mi_adj_range : forall k j, has_nb (a_adj a) k j -> (j < length (a_vxs a))%nat;
    mi_adj_sym : forall k j, has_nb (a_adj a) k j -> has_nb (a_adj a) j k }.

(** The part of the invariant that [vertex_id] keeps while the adjacency
    waits for the new vertex. *)
Record vx_inv (a : MeshAcc) : Prop :=
  { vi_found : forall p i, vxid (a_vxids a) p = Some i ->
                 exists q, a_vxs a !! i = Some q /\ point_eqb q p = true;
    vi_fresh : forall p, vxid (a_vxids a) p = None ->
                 forall q, q ∈ a_vxs a -> point_eqb q p = false;
    vi_distinct : forall i j p q, a_vxs a !! i = Some p -> a_vxs a !! j = Some q ->
                    point_eqb p q = true -> i = j }.

Lemma vertex_id_spec (p : point) (a : MeshAcc) :
  vx_inv a ->
  vx_inv (snd (vertex_id p a))
  /\ a_adj (snd (vertex_id p a)) = a_adj a
  /\ a_tris (snd (vertex_id p a)) = a_tris a
  /\ a_edges (snd (vertex_id p a)) = a_edges a
  /\ ((fst (vertex_id p a) < length (a_vxs a))%nat
        /\ a_vxs (snd (vertex_id p a)) = a_vxs a
      \/ fst (vertex_id p a) = length (a_vxs a)
         /\ a_vxs (snd (vertex_id p a)) = a_vxs a ++ [p]).
Proof.
  intros Hinv. unfold vertex_id. destruct (vxid (a_vxids a) p) as [i|] eqn:Hv; simpl.
  - split_and!; try done. left. split; [|done].
    destruct (vi_found a Hinv p i Hv) as (q & Hq & _). by eapply lookup_lt_Some.
  - split_and!; try done; [|by right]. split; simpl.
    + intros p' i. rewrite vxid_app. destruct (vxid (a_vxids a) p') as [i'|] eqn:Hv'.
      * intros [= <-]. destruct (vi_found a Hinv p' i' Hv') as (q & Hq & Hqp).
        exists q. split; [|done]. by apply lookup_app_l_Some.
      * destruct (point_eqb p p') eqn:E; [|done]. intros [= <-].
        exists p. split; [|done]. rewrite lookup_app_r by lia.
        by rewrite Nat.sub_diag.
    + intros p'. rewrite vxid_app. destruct (vxid (a_vxids a) p') as [i'|] eqn:Hv'; [done|].
      destruct (point_eqb p p') eqn:E; [done|]. intros _ q Hq.
      apply elem_of_app in Hq as [Hq|Hq]; [by eapply vi_fresh|].
      by apply list_elem_of_singleton in Hq as ->.
    + intros i j p1 p2 Hi Hj Heq.
      apply lookup_app_Some in Hi as [Hi|[Hi1 Hi2]];
        apply lookup_app_Some in Hj as [Hj|[Hj1 Hj2]].
      * by eapply vi_distinct.
      * apply list_lookup_singleton_Some in Hj2 as [_ <-].
        rewrite (vi_fresh a Hinv p Hv p1) in Heq; [done|].
        apply list_elem_of_lookup. eauto.
      * apply list_lookup_singleton_Some in Hi2 as [_ <-].
        rewrite point_eqb_sym in Heq.
        rewrite (vi_fresh a Hinv p Hv p2) in Heq; [done|].
        apply list_elem_of_lookup. eauto.
      * apply list_lookup_singleton_Some in Hi2 as [? _].
        apply list_lookup_singleton_Some in Hj2 as [? _]. lia.
Qed.

Lemma add_edge_inv (a : MeshAcc) (oe : option VEdge) : mesh_inv a -> mesh_inv (add_edge a oe).
Proof.
  intros Hinv. destruct oe as [e|]; [|done]. unfold add_edge.
  assert (Hv : vx_inv a) by (split; apply Hinv).
  destruct (vertex_id_spec (e_0 e) a Hv) as (Hv0 & Ha0 & Ht0 & _ & Hi0).
  destruct (vertex_id (e_0 e) a) as [i0 a0]. simpl in *.
  destruct (vertex_id_spec (e_1 e) a0 Hv0) as (Hv1 & Ha1 & Ht1 & _ & Hi1).
  destruct (vertex_id (e_1 e) a0) as [i1 a1]. simpl in *.
  pose proof (mi_adj_len a Hinv) as Hlen. pose proof (mi_tris_len a Hinv) as Htlen.
  rewrite Ha1, Ha0, Ht1, Ht0.
  set (n := length (a_vxs a)) in *.
  assert (Hn0 : length (a_vxs a0) = Nat.max n (S i0) /\ (i0 <= n)%nat).
  { destruct Hi0 as [[? ->]|[-> ->]]; [lia|]. rewrite length_app. simpl. lia. }
  assert (Hn1 : length (a_vxs a1) = Nat.max (length (a_vxs a0)) (S i1)
                /\ (i1 <= length (a_vxs a0))%nat).
  { destruct Hi1 as [[? ->]|[-> ->]]; [lia|]. rewrite length_app. simpl. lia. }
  destruct Hn0 as [Hn0 Hle0]. destruct Hn1 as [Hn1 Hle1].
  assert (Hp0 : length (push_at i0 i1 (a_adj a)) = length (a_vxs a0)).
  { rewrite push_at_length by lia. lia. }
  assert (Hnb : forall k j,
            has_nb (push_at i1 i0 (push_at i0 i1 (a_adj a))) k j
            <-> has_nb (a_adj a) k j \/ (k = i0 /\ j = i1) \/ (k = i1 /\ j = i0)).
  { intros k j. rewrite push_at_has_nb by lia. rewrite push_at_has_nb by lia. tauto. }
  split; simpl.
  - apply Hv1.
  - apply Hv1.
  - apply Hv1.
  - rewrite push_at_length by lia. lia.
  - rewrite push_sites_length; rewrite push_sites_length; lia.
  - intros k j Hkj. apply Hnb in Hkj as [Hkj|[[-> ->]|[-> ->]]]; [|lia..].
    pose proof (mi_adj_range a Hinv k j Hkj). fold n in H. lia.
  - intros k j Hkj. apply Hnb. apply Hnb in Hkj as [Hkj|[[-> ->]|[-> ->]]]; [|tauto..].
    left. by apply Hinv.
Qed.

Lemma foldl_add_edge_inv (es : list (option VEdge)) :
  forall a, mesh_inv a -> mesh_inv (foldl add_edge a es).
Proof.
  induction es as [|oe es IH]; intros a Hinv; [done|]. simpl.
  apply IH. by apply add_edge_inv.
Qed.

Lemma mesh_inv_empty :
  mesh_inv {| a_vxs := []; a_vxids := []; a_adj := []; a_edges := []; a_tris := [] |}.
Proof.
  split; simpl; try done.
  - intros p _ q Hq. by apply elem_of_nil in Hq.
  - intros k j (l & Hl & _). done.
  - intros k j (l & Hl & _). done.
Qed.

(** X15: every mesh that [makeMesh] builds, whatever edges the tessellation
    gives, has one adjacency list and one list of sites per vertex, has only
    vertices in its adjacency lists, has a symmetric adjacency (j is listed
    at i exactly when i is listed at j), and has no two vertices at the same
    position. *)
Theorem makeMesh_well_formed (voronoi : list point -> Extent -> list (option VEdge))
    (ps : list point) (ext : Extent) :
  exists m, makeMesh voronoi ps ext = Ret m
    /\ mesh_wf m = true
    /\ adj_symmetric m = true
    /\ length (tris m) = length (vxs m)
    /\ (forall i j, j ∈ neighbours m i <-> i ∈ neighbours m j)
    /\ (forall i j p q, vxs m !! i = Some p -> vxs m !! j = Some q ->
          point_eqb p q = true -> i = j).
Proof.
  unfold makeMesh. eexists. split; [reflexivity|].
  pose proof (foldl_add_edge_inv (voronoi ps ext) _ mesh_inv_empty) as Hinv.
  set (a := foldl add_edge _ (voronoi ps ext)) in *.
  assert (Hsym : forall i j, j ∈ neighbours
                   {| pts := ps; vxs := a_vxs a; adj := a_adj a; tris := a_tris a;
                      edges := a_edges a; extent := ext |} i -> has_nb (a_adj a) i j).
  { intros i j. unfold neighbours. simpl. destruct (a_adj a !! i) as [l|] eqn:Hl; simpl.
    - intros Hj. by exists l.
    - intros Hj. by apply elem_of_nil in Hj. }
  assert (Hsym' : forall i j, has_nb (a_adj a) i j -> j ∈ neighbours
                   {| pts := ps; vxs := a_vxs a; adj := a_adj a; tris := a_tris a;
                      edges := a_edges a; extent := ext |} i).
  { intros i j (l & Hl & Hj). unfold neighbours. simpl. by rewrite Hl. }
  split_and!.
  - unfold mesh_wf. simpl. apply andb_true_iff. split.
    + apply Nat.eqb_eq, Hinv.
    + apply Is_true_true, forallb_True, Forall_lookup. intros k l Hl.
      apply forallb_True, Forall_forall. intros j Hj.
      apply Is_true_true, Nat.ltb_lt. apply (mi_adj_range a Hinv k j). by exists l.
  - unfold adj_symmetric. apply Is_true_true, forallb_True, Forall_forall. intros i _.
    apply forallb_True, Forall_forall. intros j Hj.
    apply Is_true_true, existsb_exists. exists i. split; [|by apply Nat.eqb_eq].
    apply list_elem_of_In, Hsym', Hinv, Hsym, Hj.
  - simpl. apply Hinv.
  - intros i j. split; intros H; apply Hsym', Hinv, Hsym, H.
  - simpl. apply Hinv.
Qed.

(** ** add, slope and the gradient of a plane *)

Lemma foldl_jadd_fin (args : list (Mesh * field)) (i : nat) : forall acc,
  Forall (fun a => (i < length (snd a))%nat) args ->
  foldl (fun acc a => jadd acc (operand_at (snd a) i)) (Fin acc) args
  = Fin (foldl (fun acc a => acc + hval (snd a) i)%Q acc args).
Proof.
  induction args as [|a args IH]; intros acc Hall; [done|].
  apply Forall_cons in Hall as [Ha Hall].
  destruct (lookup_lt_is_Some_2 (snd a) i Ha) as [x Hx].
  assert (H1 : operand_at (snd a) i = Fin x) by (unfold operand_at; by rewrite Hx).
  assert (H2 : hval (snd a) i = x) by (unfold hval; by rewrite Hx).
  cbn [foldl]. rewrite H1, H2. cbn [jadd]. by apply IH.
Qed.

Lemma foldl_jadd_from_nan (args : list (Mesh * field)) (i : nat) :
  foldl (fun acc a => jadd acc (operand_at (snd a) i)) NaN args = NaN.
Proof. induction args as [|a args IH]; [done|]. cbn [foldl jadd]. apply IH. Qed.

Lemma foldl_jadd_short (args : list (Mesh * field)) (i : nat) : forall acc,
  Exists (fun a => (length (snd a) <= i)%nat) args ->
  foldl (fun acc a => jadd acc (operand_at (snd a) i)) acc args = NaN.
Proof.
  induction args as [|a args IH]; intros acc Hex; [by apply Exists_nil in Hex|].
  cbn [foldl]. apply Exists_cons in Hex as [Ha|Hex]; [|by apply IH].
  assert (H1 : operand_at (snd a) i = NaN).
  { unfold operand_at. by rewrite (lookup_ge_None_2 (snd a) i Ha). }
  rewrite H1. assert (jadd acc NaN = NaN) as -> by (by destruct acc).
  apply foldl_jadd_from_nan.
Qed.

Lemma add_length (m0 : Mesh) (h0 : field) (args : list (Mesh * field)) (r : list jsnum) :
  add ((m0, h0) :: args) = Ret (m0, r) ->
  length r = Nat.max (length h0) (length (vxs m0)).
Proof. intros [= <-]. by rewrite length_fmap, length_seq. Qed.

Lemma add_lookup (m0 : Mesh) (h0 : field) (args : list (Mesh * field)) (r : list jsnum)
    (i : nat) :
  add ((m0, h0) :: args) = Ret (m0, r) -> (i < length h0)%nat ->
  r !! i = Some (foldl (fun acc a => jadd acc (operand_at (snd a) i))
                       (operand_at (zero m0) i) ((m0, h0) :: args)).
Proof.
  intros [= <-] Hi. rewrite list_lookup_fmap, lookup_seq_lt by lia.
  change (0 + i)%nat with i. cbn [fmap option_fmap option_map].
  by rewrite (proj2 (Nat.ltb_lt i (length h0)) Hi).
Qed.

Lemma add_lookup_past (m0 : Mesh) (h0 : field) (args : list (Mesh * field))
    (r : list jsnum) (i : nat) :
  add ((m0, h0) :: args) = Ret (m0, r) -> (length h0 <= i < length (vxs m0))%nat ->
  r !! i = Some (Fin 0).
Proof.
  intros [= <-] Hi. rewrite list_lookup_fmap, lookup_seq_lt by lia.
  change (0 + i)%nat with i. cbn [fmap option_fmap option_map].
  rewrite (proj2 (Nat.ltb_ge i (length h0))) by lia.
  unfold operand_at, zero. rewrite lookup_replicate_2; [done|lia].
Qed.

Lemma makeMesh_mesh_wf (a : MeshAcc) (ps : list point) (ext : Extent) :
  mesh_inv a ->
  mesh_wf {| pts := ps; vxs := a_vxs a; adj := a_adj a; tris := a_tris a;
             edges := a_edges a; extent := ext |} = true.
Proof.
  intros Hinv. unfold mesh_wf. simpl. apply andb_true_iff. split.
  - apply Nat.eqb_eq, Hinv.
  - apply Is_true_true, forallb_True, Forall_lookup. intros k l Hl.
    apply forallb_True, Forall_forall. intros j Hj.
    apply Is_true_true, Nat.ltb_lt. apply (mi_adj_range a Hinv k j). by exists l.
Qed.

(** C9 (amended): neither [makeMesh] nor [add] validates its input.
    [makeMesh] returns a well-formed mesh over the given points and extent
    whatever the extent is and whatever the tessellation yields.  [add] of
    at least one operand returns, bound to the mesh of the first operand, a
    field as long as the longer of the first operand and its mesh, whatever
    the meshes and lengths of the operands: an index of the first operand
    where a later operand has no value, or past the mesh, holds [NaN], and
    an index past the first operand keeps the 0 of [zero]. *)
Theorem no_configuration_check :
  (forall voronoi ps ext,
     exists m, makeMesh voronoi ps ext = Ret m /\ pts m = ps /\ extent m = ext
               /\ mesh_wf m = true)
  /\ (forall m0 h0 args,
        exists r, add ((m0, h0) :: args) = Ret (m0, r)
          /\ length r = Nat.max (length h0) (length (vxs m0))
          /\ (forall i, (i < length h0)%nat ->
                Exists (fun a => (length (snd a) <= i)%nat) args -> r !! i = Some NaN)
          /\ (forall i, (length (vxs m0) <= i < length h0)%nat -> r !! i = Some NaN)
          /\ (forall i, (length h0 <= i < length (vxs m0))%nat -> r !! i = Some (Fin 0))).
Proof.
  split.
  - intros voronoi ps ext. unfold makeMesh. eexists. split; [reflexivity|].
    split_and!; [done..|].
    apply makeMesh_mesh_wf, foldl_add_edge_inv, mesh_inv_empty.
  - intros m0 h0 args.
    destruct (add ((m0, h0) :: args)) as [[m' r]|e] eqn:Hadd; [|done].
    assert (m' = m0) as -> by (by injection Hadd).
    exists r. split_and!; [done|by eapply add_length| | |].
    + intros i Hi Hex. rewrite (add_lookup m0 h0 args r i Hadd Hi).
      f_equal. apply foldl_jadd_short. by apply Exists_cons_tl.
    + intros i [Hm Hi]. rewrite (add_lookup m0 h0 args r i Hadd Hi). f_equal.
      assert (Hz : operand_at (zero m0) i = NaN).
      { unfold operand_at, zero. rewrite lookup_ge_None_2; [done|]. rewrite length_replicate. lia. }
      rewrite Hz. apply foldl_jadd_from_nan.
    + intros i Hi. by eapply add_lookup_past.
Qed.

(** X16: [add] of operands that all have one value per vertex of the first
    operand's mesh returns, bound to that mesh, the field of the sums: at
    every vertex the values of the operands added from left to right,
    starting from 0. *)
Theorem add_elementwise (m0 : Mesh) (h0 : field) (args : list (Mesh * field)) :
  length h0 = length (vxs m0) ->
  Forall (fun a => length (snd a) = length h0) args ->
  exists r, add ((m0, h0) :: args) = Ret (m0, r)
    /\ length r = length h0
    /\ forall i, (i < length h0)%nat ->
         r !! i = Some (Fin (foldl (fun acc a => acc + hval (snd a) i)%Q 0%Q
                                   ((m0, h0) :: args))).
Proof.
  intros Hlen Hall.
  destruct (add ((m0, h0) :: args)) as [[m' r]|e] eqn:Hadd; [|done].
  assert (m' = m0) as -> by (by injection Hadd).
  exists r. split; [done|]. split.
  - rewrite (add_length m0 h0 args r Hadd). lia.
  - intros i Hi. rewrite (add_lookup m0 h0 args r i Hadd Hi). f_equal.
    assert (Hz : operand_at (zero m0) i = Fin 0).
    { unfold operand_at, zero. rewrite lookup_replicate_2; [done|lia]. }
    rewrite Hz. apply foldl_jadd_fin. apply Forall_cons. split; [done|].
    eapply Forall_impl; [done|]. simpl. intros a Ha. lia.
Qed.

Lemma add_elementwise_witness :
  exists r, add [(two_mesh, [1; 2]%Q); (two_mesh, [10; 20]%Q)] = Ret (two_mesh, r)
    /\ length r = length [1; 2]%Q
    /\ forall i, (i < length [1; 2]%Q)%nat ->
         r !! i = Some (Fin (foldl (fun acc a => acc + hval (snd a) i)%Q 0%Q
                                   [(two_mesh, [1; 2]%Q); (two_mesh, [10; 20]%Q)])).
Proof.
  apply (add_elementwise two_mesh [1; 2]%Q [(two_mesh, [10; 20]%Q)]); [reflexivity|].
  apply Forall_cons_2; [reflexivity|apply Forall_nil_2].
Defined.

(** X17: [add] checks no length: at an index of the first operand where
    some operand has no value, the sum is [NaN]. *)
Theorem add_short_operand (m0 : Mesh) (h0 : field) (args : list (Mesh * field)) (i : nat) :
  (i < length h0)%nat ->
  Exists (fun a => (length (snd a) <= i)%nat) args ->
  exists r, add ((m0, h0) :: args) = Ret (m0, r) /\ r !! i = Some NaN.
Proof.
  intros Hi Hex.
  destruct (add ((m0, h0) :: args)) as [[m' r]|e] eqn:Hadd; [|done].
  assert (m' = m0) as -> by (by injection Hadd).
  exists r. split; [done|]. rewrite (add_lookup m0 h0 args r i Hadd Hi).
  f_equal. apply foldl_jadd_short. by apply Exists_cons_tl.
Qed.

Lemma add_short_operand_witness :
  exists r, add [(two_mesh, [1; 2]%Q); (one_mesh, [1]%Q)] = Ret (two_mesh, r)
            /\ r !! 1%nat = Some NaN.
Proof.
  apply (add_short_operand two_mesh [1; 2]%Q [(one_mesh, [1]%Q)] 1); [simpl; lia|].
  apply Exists_cons_hd. simpl. lia.
Defined.

(** [slope(mesh, direction)]: the dot product of every vertex position with
    the direction ([mesh.map] maps over [mesh.vxs]). *)
Definition slope (m : Mesh) (direction : point) : field :=
  (fun x => fst x * fst direction + snd x * snd direction)%Q <$> vxs m.

Lemma hval_slope (m : Mesh) (d : point) (n : nat) :
  (n < length (vxs m))%nat ->
  hval (slope m d) n = (fst (vx m n) * fst d + snd (vx m n) * snd d)%Q.
Proof.
  intros Hn. unfold hval, slope, vx. rewrite list_lookup_fmap.
  destruct (lookup_lt_is_Some_2 (vxs m) n Hn) as [p ->]. done.
Qed.

(** X18: the gradient that [trislope] estimates on the tilted plane
    [slope(mesh, direction)] is the direction itself, at every vertex with
    three neighbours that are not on one line. *)
Theorem trislope_of_slope (m : Mesh) (d : point) (i n0 n1 n2 : nat) :
  neighbours m i = [n0; n1; n2] ->
  (n0 < length (vxs m))%nat -> (n1 < length (vxs m))%nat -> (n2 < length (vxs m))%nat ->
  ~ ((fst (vx m n1) - fst (vx m n0)) * (snd (vx m n2) - snd (vx m n0))
     - (fst (vx m n2) - fst (vx m n0)) * (snd (vx m n1) - snd (vx m n0)) == 0)%Q ->
  exists gx gy, trislope m (slope m d) i = (Fin gx, Fin gy)
                /\ (gx == fst d)%Q /\ (gy == snd d)%Q.
Proof.
  intros Hn H0 H1 H2 Hdet. unfold trislope. rewrite Hn.
  rewrite !hval_slope by done. cbv zeta. unfold jdiv.
  apply Qeq_bool_false in Hdet. rewrite Hdet. apply Qeq_bool_false in Hdet.
  eexists _, _. split; [reflexivity|]. split; field; exact Hdet.
Qed.

Lemma trislope_of_slope_witness :
  exists gx gy, trislope k4_mesh (slope k4_mesh (2, 5)%Q) 0 = (Fin gx, Fin gy)
                /\ (gx == 2)%Q /\ (gy == 5)%Q.
Proof.
  apply (trislope_of_slope k4_mesh (2, 5)%Q 0 1 2 3); try reflexivity; try (simpl; lia).
  vm_compute. discriminate.
Defined.

(** ** relax, quantile and setSeaLevel *)

(** [d3.mean]: the mean of the values that are numbers; [undefined] (here
    [None]) when there is none.  An element [None] is an [undefined]
    value, which the mean skips. *)
Definition d3_mean (vals : list (option Q)) : option Q :=
  let xs := omap id vals in
  match xs with
  | [] => None
  | _ => Some (foldl Qplus 0 xs / inject_Z (Z.of_nat (length xs)))%Q
  end.

(** [relax(h)]: 0 at a vertex with fewer than 3 neighbours, the mean of
    the neighbours' heights elsewhere; [None] is [undefined]. *)
Definition relax (m : Mesh) (h : field) : list (option Q) :=
  (fun i => let nbs := neighbours m i in
            if (length nbs <? 3)%nat then Some 0%Q
            else d3_mean ((fun j => h !! j) <$> nbs))
    <$> seq 0 (length h).

(** [sortedh.sort(d3.ascending)]: a stable sort by ascending value. *)
Fixpoint insert_asc (a : Q) (l : list Q) : list Q :=
  match l with
  | [] => [a]
  | b :: r => if Qltb b a then b :: insert_asc a r else a :: l
  end.

Definition sort_asc (l : list Q) : list Q := foldr insert_asc [] l.

(** [d3.quantile(sorted, p)]: [undefined] on an empty array, the first
    value when [p <= 0] or there is one value, the last value when
    [p >= 1], and else the interpolation between the two values around
    the rank [(n - 1) * p]. *)
Definition d3_quantile (sorted : list Q) (p : Q) : option Q :=
  match sorted with
  | [] => None
  | first :: _ =>
      let n := length sorted in
      if Qle_bool p 0 || (n <? 2)%nat then Some first
      else if Qle_bool 1 p then Some (hval sorted (n - 1))
      else
        let i := (inject_Z (Z.of_nat (n - 1)) * p)%Q in
        let i0 := Qfloor i in
        let value0 := hval sorted (Z.to_nat i0) in
        let value1 := hval sorted (Z.to_nat i0 + 1) in
        Some (value0 + (value1 - value0) * (i - inject_Z i0))%Q
  end.

(** [quantile(h, q)] *)
Definition quantile (h : field) (q : Q) : option Q := d3_quantile (sort_asc h) q.

(** [setSeaLevel(h, q)]: [zero(h.mesh)] with [h[i] - delta] written at
    every index of [h]; the entries of [zero] past [h] stay 0.  The quantile
    is [undefined] on the empty field only, where the loop does not run. *)
Definition setSeaLevel (m : Mesh) (h : field) (q : Q) : field :=
  match quantile h q with
  | Some delta => ((fun x => x - delta)%Q <$> h) ++ drop (length h) (zero m)
  | None => zero m
  end.

Lemma mesh_wf_neighbour (m : Mesh) (i j : nat) :
  mesh_wf m = true -> j ∈ neighbours m i -> (j < length (vxs m))%nat.
Proof.
  unfold mesh_wf, neighbours. intros Hwf Hj.
  apply andb_true_iff in Hwf as [_ Hwf].
  destruct (adj m !! i) as [l|] eqn:Hl; simpl in Hj; [|by apply elem_of_nil in Hj].
  apply Is_true_true, forallb_True in Hwf.
  rewrite Forall_lookup in Hwf. specialize (Hwf i l Hl).
  apply forallb_True in Hwf. rewrite Forall_forall in Hwf.
  specialize (Hwf j Hj). by apply Is_true_true, Nat.ltb_lt in Hwf.
Qed.

Lemma field_on_spec (m : Mesh) (h : field) :
  field_on m h = true -> mesh_wf m = true /\ length h = length (vxs m).
Proof.
  unfold field_on. intros H. apply andb_true_iff in H as [? H]. split; [done|].
  by apply Nat.eqb_eq.
Qed.

Lemma foldl_Qplus_bounds (xs : list Q) (lo hi : Q) : forall acc,
  Forall (fun x => (lo <= x <= hi)%Q) xs ->
  (acc + inject_Z (Z.of_nat (length xs)) * lo <= foldl Qplus acc xs)%Q
  /\ (foldl Qplus acc xs <= acc + inject_Z (Z.of_nat (length xs)) * hi)%Q.
Proof.
  induction xs as [|x xs IH]; intros acc Hall.
  - simpl. split; ring_simplify; lra.
  - apply Forall_cons in Hall as [Hx Hall]. cbn [foldl length].
    destruct (IH (acc + x)%Q Hall) as [H1 H2].
    rewrite Nat2Z.inj_succ. unfold Z.succ. rewrite inject_Z_plus.
    change (inject_Z 1) with 1%Q. split; [eapply Qle_trans; [|exact H1]|eapply Qle_trans; [exact H2|]];
      ring_simplify; lra.
Qed.

Lemma omap_id_Some (xs : list Q) : omap id (Some <$> xs) = xs.
Proof. induction xs as [|x xs IH]; [done|]. cbn. by rewrite IH. Qed.

Lemma d3_mean_bounds (xs : list Q) (lo hi : Q) :
  xs <> [] -> Forall (fun x => (lo <= x <= hi)%Q) xs ->
  exists v, d3_mean (Some <$> xs) = Some v /\ (lo <= v <= hi)%Q.
Proof.
  intros Hne Hall. unfold d3_mean. rewrite omap_id_Some.
  destruct xs as [|x xs']; [done|]. set (xs := x :: xs') in *.
  eexists. split; [reflexivity|].
  destruct (foldl_Qplus_bounds xs lo hi 0 Hall) as [H1 H2].
  assert (Hk : (0 < inject_Z (Z.of_nat (length xs)))%Q).
  { change 0%Q with (inject_Z 0). rewrite <- Zlt_Qlt. simpl. lia. }
  set (k := inject_Z (Z.of_nat (length xs))) in *.
  split; [apply Qle_shift_div_l|apply Qle_shift_div_r]; try done; lra.
Qed.

(** X19: over a well-formed mesh, [relax] keeps the heights within their
    bounds: when every height lies between [lo <= 0] and [hi >= 0], so does
    every relaxed height, and a vertex on the edge of the map (fewer than
    3 neighbours) gets exactly 0. *)
Theorem relax_within_bounds (m : Mesh) (h : field) (lo hi : Q) (i : nat) :
  field_on m h = true ->
  (forall x, x ∈ h -> (lo <= x <= hi)%Q) -> (lo <= 0)%Q -> (0 <= hi)%Q ->
  (i < length h)%nat ->
  exists v, relax m h !! i = Some (Some v) /\ (lo <= v <= hi)%Q
            /\ (isedge m i = true -> v = 0%Q).
Proof.
  intros Hon Hb Hlo Hhi Hi. destruct (field_on_spec m h Hon) as [Hwf Hlen].
  unfold relax. rewrite list_lookup_fmap, lookup_seq_lt by done.
  change (0 + i)%nat with i. cbn [fmap option_fmap option_map]. unfold isedge.
  destruct (length (neighbours m i) <? 3)%nat eqn:E.
  - exists 0%Q. split_and!; [done|lra|lra|done].
  - apply Nat.ltb_ge in E.
    assert (Hvals : exists xs, (fun j => h !! j) <$> neighbours m i = Some <$> xs
                      /\ Forall (fun x => (lo <= x <= hi)%Q) xs /\ xs <> []).
    { assert (Hall : Forall (fun j => (j < length h)%nat) (neighbours m i)).
      { apply Forall_forall. intros j Hj. rewrite Hlen. by eapply mesh_wf_neighbour. }
      assert (Hne : neighbours m i <> []) by (intros Hn; rewrite Hn in E; simpl in E; lia).
      clear E. induction (neighbours m i) as [|j nbs IH]; [done|].
      apply Forall_cons in Hall as [Hj Hall].
      destruct (lookup_lt_is_Some_2 h j Hj) as [x Hx].
      assert (Hxb : (lo <= x <= hi)%Q) by (apply Hb, list_elem_of_lookup; eauto).
      destruct nbs as [|j' nbs'].
      - exists [x]. rewrite !fmap_cons, Hx. split_and!; [done| |done].
        by apply Forall_singleton.
      - destruct IH as (xs & Hxs & Hfa & _); [done..|].
        exists (x :: xs). rewrite fmap_cons, Hxs, Hx. split_and!; [done| |done].
        by apply Forall_cons. }
    destruct Hvals as (xs & -> & Hfa & Hne).
    destruct (d3_mean_bounds xs lo hi Hne Hfa) as (v & -> & Hv).
    exists v. split_and!; [done|apply Hv|apply Hv|done].
Qed.

Lemma relax_within_bounds_witness :
  exists v, relax k4_mesh [3; 2; 1; 0]%Q !! 0%nat = Some (Some v) /\ (0 <= v <= 3)%Q
            /\ (isedge k4_mesh 0 = true -> v = 0%Q).
Proof.
  apply (relax_within_bounds k4_mesh [3; 2; 1; 0]%Q 0 3 0); try reflexivity;
    try (simpl; lia); try (vm_compute; discriminate).
  intros x Hx. repeat (apply elem_of_cons in Hx as [->|Hx]; [split; vm_compute; discriminate|]).
  by apply elem_of_nil in Hx.
Defined.

Lemma insert_asc_perm (a : Q) (l : list Q) : insert_asc a l ≡ₚ a :: l.
Proof.
  induction l as [|b r IH]; [done|]. simpl. destruct (Qltb b a); [|done].
  rewrite IH. apply perm_swap.
Qed.

Lemma sort_asc_perm (l : list Q) : sort_asc l ≡ₚ l.
Proof.
  induction l as [|a l IH]; [done|]. simpl. rewrite insert_asc_perm. by rewrite IH.
Qed.

Lemma d3_quantile_bounds (s : list Q) (p lo hi : Q) :
  s <> [] -> (forall x, x ∈ s -> (lo <= x <= hi)%Q) ->
  exists v, d3_quantile s p = Some v /\ (lo <= v <= hi)%Q.
Proof.
  intros Hne Hb. unfold d3_quantile. destruct s as [|first rest]; [done|].
  set (s := first :: rest) in *.
  assert (Hat : forall k, (k < length s)%nat -> (lo <= hval s k <= hi)%Q).
  { intros k Hk. unfold hval. destruct (lookup_lt_is_Some_2 s k Hk) as [x Hx].
    rewrite Hx. simpl. apply Hb, list_elem_of_lookup. eauto. }
  destruct (Qle_bool p 0 || (length s <? 2)%nat) eqn:E1.
  { eexists. split; [done|]. apply Hb. left. }
  apply orb_false_iff in E1 as [E1 E2]. apply Nat.ltb_ge in E2. qbool.
  destruct (Qle_bool 1 p) eqn:E3; qbool.
  { eexists. split; [done|]. apply Hat. lia. }
  eexists. split; [done|].
  set (i := (inject_Z (Z.of_nat (length s - 1)) * p)%Q).
  assert (Hn1 : (1 <= inject_Z (Z.of_nat (length s - 1)))%Q).
  { change 1%Q with (inject_Z 1). rewrite <- Zle_Qle. lia. }
  assert (Hi0 : (0 <= i)%Q) by (unfold i; nra).
  assert (Hi1 : (i < inject_Z (Z.of_nat (length s - 1)))%Q) by (unfold i; nra).
  pose proof (Qfloor_le i) as Hf1. pose proof (Qlt_floor i) as Hf2.
  assert (Hz0 : (0 <= Qfloor i)%Z).
  { change 0%Z with (Qfloor 0). by apply Qfloor_resp_le. }
  assert (Hz1 : (Qfloor i < Z.of_nat (length s - 1))%Z).
  { rewrite Zlt_Qlt. lra. }
  rewrite inject_Z_plus in Hf2. change (inject_Z 1) with 1%Q in Hf2.
  pose proof (Hat (Z.to_nat (Qfloor i)) ltac:(lia)) as H0.
  pose proof (Hat (Z.to_nat (Qfloor i) + 1)%nat ltac:(lia)) as H1.
  set (t := (i - inject_Z (Qfloor i))%Q).
  assert (Ht : (0 <= t <= 1)%Q) by (unfold t; lra).
  split; nra.
Qed.

(** X20: on a field that is not empty, [quantile(h, q)] is a number between
    the lowest and the highest height, for every [q]. *)
Theorem quantile_between (h : field) (q lo hi : Q) :
  h <> [] -> (forall x, x ∈ h -> (lo <= x <= hi)%Q) ->
  exists v, quantile h q = Some v /\ (lo <= v <= hi)%Q.
Proof.
  intros Hne Hb. unfold quantile. apply d3_quantile_bounds.
  - intros Hs. apply Hne. apply Permutation_nil_r. rewrite <- Hs. by rewrite sort_asc_perm.
  - intros x Hx. apply Hb. by rewrite <- (sort_asc_perm h).
Qed.

Lemma quantile_between_witness :
  exists v, quantile [3; 1; 2; 5]%Q (1 # 2) = Some v /\ (1 <= v <= 5)%Q.
Proof.
  apply (quantile_between [3; 1; 2; 5]%Q (1 # 2) 1 5); [done|].
  intros x Hx. repeat (apply elem_of_cons in Hx as [->|Hx]; [split; vm_compute; discriminate|]).
  by apply elem_of_nil in Hx.
Defined.

Lemma Qltb_shift (a b d : Q) : Qltb (b - d) (a - d) = Qltb b a.
Proof.
  destruct (Qltb (b - d) (a - d)) eqn:E1, (Qltb b a) eqn:E2; try done; qbool; lra.
Qed.

Lemma insert_asc_shift (d a : Q) (l : list Q) :
  insert_asc (a - d) ((fun x => x - d)%Q <$> l) = (fun x => x - d)%Q <$> insert_asc a l.
Proof.
  induction l as [|b r IH]; [done|]. rewrite fmap_cons. cbn [insert_asc].
  rewrite Qltb_shift. destruct (Qltb b a); [|done]. by rewrite IH.
Qed.

Lemma sort_asc_shift (d : Q) (l : list Q) :
  sort_asc ((fun x => x - d)%Q <$> l) = (fun x => x - d)%Q <$> sort_asc l.
Proof.
  induction l as [|a l IH]; [done|]. rewrite fmap_cons. cbn [sort_asc foldr].
  fold (sort_asc ((fun x => x - d)%Q <$> l)). fold (sort_asc l).
  rewrite IH. apply insert_asc_shift.
Qed.

Lemma hval_shift (d : Q) (s : list Q) (k : nat) :
  (k < length s)%nat -> hval ((fun x => x - d)%Q <$> s) k = (hval s k - d)%Q.
Proof.
  intros Hk. unfold hval. rewrite list_lookup_fmap.
  destruct (lookup_lt_is_Some_2 s k Hk) as [x ->]. done.
Qed.

Lemma d3_quantile_shift (d p : Q) (s : list Q) (v : Q) :
  d3_quantile s p = Some v ->
  exists v', d3_quantile ((fun x => x - d)%Q <$> s) p = Some v' /\ (v' == v - d)%Q.
Proof.
  unfold d3_quantile. destruct s as [|first rest]; [done|].
  set (f := fun x => (x - d)%Q). rewrite fmap_cons. cbv iota beta.
  change (f first :: (f <$> rest)) with (f <$> (first :: rest)).
  set (s := first :: rest) in *. rewrite length_fmap. unfold f; clear f.
  destruct (Qle_bool p 0 || (length s <? 2)%nat) eqn:E1.
  { intros Hv. apply (inj Some) in Hv. rewrite <- Hv. eexists. split; [done|]. reflexivity. }
  apply orb_false_iff in E1 as [E1 E2]. apply Nat.ltb_ge in E2. qbool.
  destruct (Qle_bool 1 p) eqn:E3; qbool.
  { intros Hv. apply (inj Some) in Hv. rewrite <- Hv. eexists. split; [done|].
    rewrite hval_shift by lia. reflexivity. }
  set (i := (inject_Z (Z.of_nat (length s - 1)) * p)%Q).
  intros Hv. apply (inj Some) in Hv. rewrite <- Hv. eexists. split; [done|].
  assert (Hn1 : (1 <= inject_Z (Z.of_nat (length s - 1)))%Q).
  { change 1%Q with (inject_Z 1). rewrite <- Zle_Qle. lia. }
  assert (Hi0 : (0 <= i)%Q) by (unfold i; nra).
  assert (Hi1 : (i < inject_Z (Z.of_nat (length s - 1)))%Q) by (unfold i; nra).
  pose proof (Qfloor_le i) as Hf1.
  assert (Hz0 : (0 <= Qfloor i)%Z).
  { change 0%Z with (Qfloor 0). by apply Qfloor_resp_le. }
  assert (Hz1 : (Qfloor i < Z.of_nat (length s - 1))%Z).
  { rewrite Zlt_Qlt. lra. }
  rewrite !hval_shift by lia. ring.
Qed.

Lemma quantile_between_aux (h : field) (q : Q) :
  h <> [] -> exists v, quantile h q = Some v.
Proof.
  intros Hne. unfold quantile, d3_quantile.
  destruct (sort_asc h) as [|first rest] eqn:Hs.
  - destruct Hne. apply Permutation_nil_r. rewrite <- Hs. by rewrite sort_asc_perm.
  - repeat case_match; by eexists.
Qed.

(** X21: over a field with one value per vertex of its mesh,
    [setSeaLevel(h, q)] subtracts the quantile from every height, and
    it puts the sea level at zero: the same quantile of the result is 0. *)
Theorem setSeaLevel_recentres (m : Mesh) (h : field) (q : Q) :
  h <> [] -> length h = length (vxs m) ->
  exists delta, quantile h q = Some delta
    /\ setSeaLevel m h q = (fun x => x - delta)%Q <$> h
    /\ exists v, quantile (setSeaLevel m h q) q = Some v /\ (v == 0)%Q.
Proof.
  intros Hne Hlen.
  destruct (quantile_between_aux h q Hne) as [delta Hd].
  exists delta. split; [done|].
  assert (E : setSeaLevel m h q = (fun x => x - delta)%Q <$> h).
  { unfold setSeaLevel, zero. rewrite Hd, Hlen.
    rewrite drop_ge by (by rewrite length_replicate). apply app_nil_r. }
  rewrite E. split; [done|].
  unfold quantile in *. rewrite sort_asc_shift.
  destruct (d3_quantile_shift delta q _ delta Hd) as (v' & Hv' & Heq).
  exists v'. split; [done|]. rewrite Heq. ring.
Qed.

Lemma setSeaLevel_recentres_witness :
  exists delta, quantile [3; 1; 2; 5]%Q (1 # 2) = Some delta
    /\ setSeaLevel k4_mesh [3; 1; 2; 5]%Q (1 # 2)
       = (fun x => x - delta)%Q <$> [3; 1; 2; 5]%Q
    /\ exists v, quantile (setSeaLevel k4_mesh [3; 1; 2; 5]%Q (1 # 2)) (1 # 2) = Some v
                 /\ (v == 0)%Q.
Proof.
  apply (setSeaLevel_recentres k4_mesh [3; 1; 2; 5]%Q (1 # 2)); [discriminate|reflexivity].
Defined.

(** ** getFlux: the order of the vertices and the flow *)

(** The heights never rise along the list. *)
Fixpoint desc_sorted (h : field) (l : list nat) : Prop :=
  match l with
  | [] => True
  | a :: r => Forall (fun b => (hval h b <= hval h a)%Q) r /\ desc_sorted h r
  end.

Lemma insert_desc_perm (h : field) (a : nat) (l : list nat) : insert_desc h a l ≡ₚ a :: l.
Proof.
  induction l as [|b r IH]; [done|]. simpl.
  destruct (Qltb (hval h a) (hval h b)); [|done]. rewrite IH. apply perm_swap.
Qed.

Lemma sort_desc_perm (h : field) (l : list nat) : sort_desc h l ≡ₚ l.
Proof.
  induction l as [|a l IH]; [done|]. simpl. rewrite insert_desc_perm. by rewrite IH.
Qed.

Lemma insert_desc_sorted (h : field) (a : nat) (l : list nat) :
  desc_sorted h l -> desc_sorted h (insert_desc h a l).
Proof.
  induction l as [|b r IH]; intros Hs; simpl; [done|].
  destruct Hs as [Hb Hr]. destruct (Qltb (hval h a) (hval h b)) eqn:E; qbool.
  - split; [|by apply IH]. rewrite insert_desc_perm. apply Forall_cons. split; [lra|done].
  - split; [|done]. apply Forall_cons. split; [done|].
    eapply Forall_impl; [done|]. simpl. intros c Hc. lra.
Qed.

Lemma sort_desc_sorted (h : field) (l : list nat) : desc_sorted h (sort_desc h l).
Proof.
  induction l as [|a l IH]; [done|]. simpl. by apply insert_desc_sorted.
Qed.

Lemma desc_sorted_app (h : field) (P R : list nat) :
  desc_sorted h (P ++ R) ->
  desc_sorted h R /\ forall p r, p ∈ P -> r ∈ R -> (hval h r <= hval h p)%Q.
Proof.
  induction P as [|a P IH]; simpl.
  - intros Hs. split; [done|]. intros p r Hp. by apply elem_of_nil in Hp.
  - intros [Ha Hs]. destruct (IH Hs) as [H1 H2]. split; [done|].
    intros p r Hp Hr. apply elem_of_cons in Hp as [->|Hp]; [|by apply H2].
    rewrite Forall_forall in Ha. apply Ha. apply elem_of_app. by right.
Qed.


(** *** The flow *)

(** The downhill target of a vertex, if it has one ([dh[j] >= 0]). *)
Definition dh_target (dh : list Z) (j : nat) : option nat :=
  match dh !! j with
  | Some d => if (0 <=? d)%Z then Some (Z.to_nat d) else None
  | None => None
  end.

Definition has_target (dh : list Z) (j : nat) : bool :=
  match dh_target dh j with Some _ => true | None => false end.


(** The flux that is handed downhill: the sum of the flux at the vertices
    with a downhill target. *)
Definition handed_flux (m : Mesh) (h : field) : Q :=
  Qsum (imap (fun t x => if has_target (downhill m h) t then x else 0%Q) (getFlux m h)).

(** The flux that the vertices of [P] with the target [t] hold. *)
Definition inflow (dh : list Z) (P : list nat) (flux : list Q) (t : nat) : Q :=
  Qsum (omap (fun j => if decide (dh_target dh j = Some t) then flux !! j else None) P).

Lemma drain_target (dh : list Z) (flux : list Q) (j : nat) :
  drain dh flux j
  = match dh_target dh j with
    | Some t =>
        match flux !! t, flux !! j with
        | Some ft, Some fj => <[t := (ft + fj)%Q]> flux
        | _, _ => flux
        end
    | None => flux
    end.
Proof.
  unfold drain, dh_target. destruct (dh !! j) as [d|]; [|done]. by destruct (0 <=? d)%Z.
Qed.

Lemma target_lower (m : Mesh) (h : field) (j t : nat) :
  dh_target (downhill m h) j = Some t ->
  exists vj vt, h !! j = Some vj /\ h !! t = Some vt /\ (vt < vj)%Q.
Proof.
  unfold dh_target. destruct (downhill m h !! j) as [d|] eqn:Hd; [|done].
  assert (Hj : (j < length h)%nat).
  { rewrite <- (length_downhill m h). by eapply lookup_lt_Some. }
  rewrite downhill_lookup in Hd by done. injection Hd as <-.
  destruct (lookup_lt_is_Some_2 h j Hj) as [vj Hvj].
  destruct (downfrom_lowest m h j vj Hvj) as [He Hn].
  destruct (isedge m j) eqn:E.
  - rewrite (He eq_refl). done.
  - destruct (Hn eq_refl) as [[-> _]|(k & vk & -> & _ & Hk & Hlt & _)]; [done|].
    destruct (0 <=? Z.of_nat k)%Z; [|done]. intros [= <-]. rewrite Nat2Z.id.
    by exists vj, vk.
Qed.

Lemma Qsum_app (l l' : list Q) : (Qsum (l ++ l') == Qsum l + Qsum l')%Q.
Proof.
  induction l as [|x l IH]; simpl; [ring|]. rewrite IH. ring.
Qed.


Lemma Qsum_nonneg (l : list Q) : Forall (fun x => (0 <= x)%Q) l -> (0 <= Qsum l)%Q.
Proof.
  induction 1 as [|x l Hx _ IH]; simpl; lra.
Qed.

Lemma Qsum_two_le (l : list Q) (j t : nat) (a b : Q) :
  Forall (fun x => (0 <= x)%Q) l -> j <> t ->
  l !! j = Some a -> l !! t = Some b -> (a + b <= Qsum l)%Q.
Proof.
  intros Hall Hne Hj Ht.
  assert (Ht' : <[j := 0%Q]> l !! t = Some b) by (by rewrite list_lookup_insert_ne).
  pose proof (Qsum_insert l j a 0 Hj) as E1.
  pose proof (Qsum_insert (<[j := 0%Q]> l) t b 0 Ht') as E2.
  assert (Hnn : (0 <= Qsum (<[t := 0%Q]> (<[j := 0%Q]> l)))%Q).
  { apply Qsum_nonneg. rewrite Forall_lookup. intros k x Hk.
    destruct (decide (k = t)) as [->|Hkt].
    - rewrite list_lookup_insert_eq in Hk; [injection Hk as <-; lra|].
      rewrite length_insert. by eapply lookup_lt_Some.
    - rewrite list_lookup_insert_ne in Hk by done.
      destruct (decide (k = j)) as [->|Hkj].
      + rewrite list_lookup_insert_eq in Hk; [injection Hk as <-; lra|].
        by eapply lookup_lt_Some.
      + rewrite list_lookup_insert_ne in Hk by done.
        rewrite Forall_lookup in Hall. by eapply Hall. }
  lra.
Qed.

Section FluxFlow.

Variable m : Mesh.
Variable h : field.

Let dh := downhill m h.
Let n := length h.
Let c : Q := (1 / inject_Z (Z.of_nat n))%Q.

(** Vertex [t] has handed its flux on. *)
Definition passed (P : list nat) (t : nat) : bool :=
  bool_decide (t ∈ P) && has_target (downhill m h) t.

Definition masked (P : list nat) (flux : list Q) : list Q :=
  imap (fun t x => if passed P t then 0%Q else x) flux.

(** What the accumulation keeps, [P] being the vertices handled so far. *)
Record flow_inv (P : list nat) (flux : list Q) : Prop :=
  { fi_len : length flux = length h;
    fi_low : forall k x, flux !! k = Some x -> (c <= x <= 1)%Q;
    fi_live : (Qsum (masked P flux) == 1)%Q;
    fi_flow : forall t x, flux !! t = Some x ->
                (x == c + inflow (downhill m h) P flux t)%Q }.

Lemma masked_lookup (P : list nat) (flux : list Q) (k : nat) :
  masked P flux !! k = (fun x => if passed P k then 0%Q else x) <$> flux !! k.
Proof. unfold masked. by rewrite list_lookup_imap. Qed.

Lemma passed_snoc (P : list nat) (j k : nat) :
  passed (P ++ [j]) k
  = if decide (k = j) then has_target (downhill m h) j else passed P k.
Proof.
  unfold passed. destruct (decide (k = j)) as [->|Hne].
  - rewrite bool_decide_eq_true_2; [done|]. apply elem_of_app. right. by left.
  - f_equal. apply bool_decide_ext. rewrite elem_of_app, list_elem_of_singleton. tauto.
Qed.

Lemma inflow_snoc (P : list nat) (j : nat) (flux : list Q) (t : nat) :
  (inflow (downhill m h) (P ++ [j]) flux t
   == inflow (downhill m h) P flux t
      + match (if decide (dh_target (downhill m h) j = Some t) then flux !! j else None) with
        | Some x => x
        | None => 0
        end)%Q.
Proof.
  unfold inflow. rewrite omap_app, Qsum_app. simpl.
  destruct (if decide (dh_target (downhill m h) j = Some t) then flux !! j else None);
    simpl; ring.
Qed.

Lemma inflow_insert (P : list nat) (flux : list Q) (t0 : nat) (v : Q) (t : nat) :
  t0 ∉ P -> inflow (downhill m h) P (<[t0 := v]> flux) t = inflow (downhill m h) P flux t.
Proof.
  intros Hnot. unfold inflow. f_equal. induction P as [|p P IH]; [done|].
  apply not_elem_of_cons in Hnot as [Hne Hnot]. csimpl.
  rewrite list_lookup_insert_ne by done. by rewrite IH.
Qed.

Hypothesis nonempty : h <> [].

Lemma share_pos : (0 < c)%Q /\ (c <= 1)%Q /\ (inject_Z (Z.of_nat n) * c == 1)%Q.
Proof.
  assert (Hn : (0 < n)%nat) by (unfold n; destruct h; [done|simpl; lia]).
  assert (Hk : (1 <= inject_Z (Z.of_nat n))%Q).
  { change 1%Q with (inject_Z 1). rewrite <- Zle_Qle. lia. }
  unfold c. set (k := inject_Z (Z.of_nat n)) in *. split_and!.
  - apply Qlt_shift_div_l; lra.
  - apply Qle_shift_div_r; lra.
  - field. lra.
Qed.

Lemma flow_inv_init : flow_inv [] (replicate n c).
Proof.
  destruct share_pos as (Hc0 & Hc1 & Hkc). split.
  - by rewrite length_replicate.
  - intros k x Hk. apply lookup_replicate in Hk as [-> _]. lra.
  - assert (E : masked [] (replicate n c) = replicate n c).
    { apply list_eq. intros k. rewrite masked_lookup. unfold passed.
      rewrite bool_decide_eq_false_2 by apply not_elem_of_nil. simpl.
      by destruct (replicate n c !! k). }
    rewrite E, Qsum_replicate. exact Hkc.
  - intros t x Hx. apply lookup_replicate in Hx as [-> _]. unfold inflow. simpl. ring.
Qed.

Lemma drain_flow_inv (P : list nat) (flux : list Q) (j : nat) :
  flow_inv P flux -> j ∉ P -> (j < length h)%nat ->
  (forall p, p ∈ P -> (hval h j <= hval h p)%Q) ->
  flow_inv (P ++ [j]) (drain (downhill m h) flux j).
Proof.
  intros Hinv HjP Hj Hord. destruct share_pos as (Hc0 & Hc1 & _).
  rewrite drain_target. destruct (dh_target (downhill m h) j) as [t0|] eqn:Ht.
  - destruct (target_lower m h j t0 Ht) as (vj & vt & Hvj & Hvt & Hlt).
    assert (Hne : t0 <> j) by (intros ->; rewrite Hvj in Hvt; injection Hvt as ->; lra).
    assert (Ht0P : t0 ∉ P).
    { intros Hin. specialize (Hord t0 Hin). unfold hval in Hord.
      rewrite Hvj, Hvt in Hord. simpl in Hord. lra. }
    destruct (lookup_lt_is_Some_2 flux t0) as [ft Hft].
    { rewrite (fi_len _ _ Hinv). by eapply lookup_lt_Some. }
    destruct (lookup_lt_is_Some_2 flux j) as [fj Hfj].
    { by rewrite (fi_len _ _ Hinv). }
    rewrite Hft, Hfj.
    assert (Hlt0 : (t0 < length flux)%nat) by (by eapply lookup_lt_Some).
    assert (Hltj : (j < length flux)%nat) by (by eapply lookup_lt_Some).
    assert (HMj : masked P flux !! j = Some fj).
    { rewrite masked_lookup, Hfj. unfold passed.
      by rewrite bool_decide_eq_false_2. }
    assert (HMt : masked P flux !! t0 = Some ft).
    { rewrite masked_lookup, Hft. unfold passed.
      by rewrite bool_decide_eq_false_2. }
    assert (Hnn : Forall (fun x => (0 <= x)%Q) (masked P flux)).
    { rewrite Forall_lookup. intros k x. rewrite masked_lookup.
      destruct (flux !! k) as [y|] eqn:Hy; [|done]. simpl. intros [= <-].
      pose proof (fi_low _ _ Hinv k y Hy). destruct (passed P k); lra. }
    pose proof (Qsum_two_le _ j t0 fj ft Hnn (not_eq_sym Hne) HMj HMt) as Hsum.
    pose proof (fi_live _ _ Hinv) as Hlive.
    pose proof (fi_low _ _ Hinv t0 ft Hft) as [Hft1 _].
    pose proof (fi_low _ _ Hinv j fj Hfj) as [Hfj1 _].
    split.
    + rewrite length_insert. apply Hinv.
    + intros k x. destruct (decide (k = t0)) as [->|Hk].
      * rewrite list_lookup_insert_eq by done. intros [= <-]. lra.
      * rewrite list_lookup_insert_ne by done. apply Hinv.
    + assert (E : masked (P ++ [j]) (<[t0 := (ft + fj)%Q]> flux)
                  = <[t0 := (ft + fj)%Q]> (<[j := 0%Q]> (masked P flux))).
      { apply list_eq. intros k. rewrite masked_lookup, passed_snoc.
        destruct (decide (k = t0)) as [->|Hk0].
        - rewrite !list_lookup_insert_eq;
            [|by rewrite length_insert; unfold masked; rewrite length_imap|done].
          rewrite decide_False by done. unfold passed.
          by rewrite bool_decide_eq_false_2.
        - rewrite !(list_lookup_insert_ne _ t0) by done.
          destruct (decide (k = j)) as [->|Hkj].
          + rewrite list_lookup_insert_eq by (unfold masked; by rewrite length_imap).
            rewrite Hfj. unfold has_target. by rewrite Ht.
          + rewrite list_lookup_insert_ne by done. by rewrite masked_lookup. }
      rewrite E.
      rewrite (Qsum_insert _ t0 ft); [|by rewrite list_lookup_insert_ne].
      rewrite (Qsum_insert _ j fj _ HMj). lra.
    + intros t x. rewrite inflow_snoc, inflow_insert by done.
      rewrite (list_lookup_insert_ne flux t0 j) by done. rewrite Hfj.
      destruct (decide (t = t0)) as [->|Hk].
      * rewrite list_lookup_insert_eq by done. intros [= <-].
        rewrite decide_True by done. rewrite (fi_flow _ _ Hinv t0 ft Hft). ring.
      * rewrite list_lookup_insert_ne by done. intros Hx.
        rewrite decide_False by congruence. rewrite (fi_flow _ _ Hinv t x Hx). ring.
  - split.
    + apply Hinv.
    + apply Hinv.
    + assert (E : masked (P ++ [j]) flux = masked P flux).
      { apply list_eq. intros k. rewrite !masked_lookup, passed_snoc.
        destruct (decide (k = j)) as [->|Hkj]; [|done].
        unfold has_target, passed. rewrite Ht. by rewrite bool_decide_eq_false_2. }
      rewrite E. apply Hinv.
    + intros t x Hx. rewrite inflow_snoc, Ht. rewrite decide_False by done.
      rewrite (fi_flow _ _ Hinv t x Hx). ring.
Qed.

Lemma foldl_drain_flow (R : list nat) : forall P flux,
  NoDup (P ++ R) -> desc_sorted h (P ++ R) -> (forall j, j ∈ R -> (j < length h)%nat) ->
  flow_inv P flux -> flow_inv (P ++ R) (foldl (drain (downhill m h)) flux R).
Proof.
  induction R as [|j R IH]; intros P flux Hnd Hs Hin Hinv.
  - by rewrite app_nil_r.
  - simpl. replace (P ++ j :: R) with ((P ++ [j]) ++ R) in * by (by rewrite <- app_assoc).
    apply IH; [done..| |].
    + intros k Hk. apply Hin. by right.
    + apply drain_flow_inv; [done| | |].
      * rewrite <- app_assoc in Hnd. apply NoDup_app in Hnd as (_ & Hd & _).
        intros HjP. apply (Hd j HjP). by left.
      * apply Hin. by left.
      * rewrite <- app_assoc in Hs. apply desc_sorted_app in Hs as [_ Hs].
        intros p Hp. apply Hs; [done|by left].
Qed.

Lemma getFlux_flow_inv :
  flow_inv (sort_desc h (seq 0 (length h))) (getFlux m h).
Proof.
  assert (Hp : sort_desc h (seq 0 (length h)) ≡ₚ seq 0 (length h))
    by apply sort_desc_perm.
  assert (Hnd : NoDup ([] ++ sort_desc h (seq 0 (length h)))).
  { cbn [app]. rewrite Hp. apply NoDup_seq. }
  assert (Hs : desc_sorted h ([] ++ sort_desc h (seq 0 (length h))))
    by apply sort_desc_sorted.
  assert (Hin : forall j, j ∈ sort_desc h (seq 0 (length h)) -> (j < length h)%nat).
  { intros j Hj. rewrite Hp in Hj. apply elem_of_seq in Hj. lia. }
  exact (foldl_drain_flow _ [] _ Hnd Hs Hin flow_inv_init).
Qed.

End FluxFlow.

Lemma masked_all (m : Mesh) (h : field) (P : list nat) (flux : list Q) :
  (forall k, (k < length flux)%nat -> k ∈ P) ->
  masked m h P flux
  = imap (fun t x => if has_target (downhill m h) t then 0%Q else x) flux.
Proof.
  intros Hall. apply list_eq. intros k. rewrite masked_lookup, list_lookup_imap.
  destruct (flux !! k) as [x|] eqn:Hx; [|done]. simpl. unfold passed.
  rewrite bool_decide_eq_true_2; [done|]. apply Hall. by eapply lookup_lt_Some.
Qed.

Lemma Qsum_split (l : list Q) : forall f : nat -> bool,
  (Qsum l == Qsum (imap (fun t x => if f t then 0%Q else x) l)
             + Qsum (imap (fun t x => if f t then x else 0%Q) l))%Q.
Proof.
  induction l as [|x l IH]; intros f; [simpl; ring|].
  cbn [imap]. change (Qsum (?a :: ?r)) with (a + Qsum r)%Q.
  rewrite (IH (f ∘ S)). unfold compose. destruct (f 0%nat); ring.
Qed.

(** C3 (amended): over a field on its mesh with at least one vertex every
    value of [getFlux] is at least the share [1 / vertexCount], and the
    values sum to exactly 1 plus the flux handed downhill (the flux of
    every vertex that has a downhill target, never negative): a vertex
    keeps its flux when it adds it to its target. *)
Theorem getFlux_share_and_total (m : Mesh) (h : field) :
  field_on m h = true -> h <> [] ->
  length (getFlux m h) = length h
  /\ (forall i, (i < length h)%nat ->
        exists x, getFlux m h !! i = Some x
                  /\ (1 / inject_Z (Z.of_nat (length h)) <= x)%Q)
  /\ (Qsum (getFlux m h) == 1 + handed_flux m h)%Q
  /\ (0 <= handed_flux m h)%Q.
Proof.
  intros _ Hne. pose proof (getFlux_flow_inv m h Hne) as Hinv.
  assert (Hlen : length (getFlux m h) = length h) by apply Hinv.
  split_and!; [done| | |].
  - intros i Hi. destruct (lookup_lt_is_Some_2 (getFlux m h) i) as [x Hx]; [lia|].
    exists x. split; [done|]. by destruct (fi_low _ _ _ _ Hinv i x Hx).
  - rewrite (Qsum_split (getFlux m h) (has_target (downhill m h))).
    fold (handed_flux m h).
    rewrite <- (masked_all m h (sort_desc h (seq 0 (length h)))).
    + by rewrite (fi_live _ _ _ _ Hinv).
    + intros k Hk. rewrite sort_desc_perm. apply elem_of_seq. lia.
  - apply Qsum_nonneg. rewrite Forall_lookup. intros k x.
    rewrite list_lookup_imap. destruct (getFlux m h !! k) as [y|] eqn:Hy; [|done].
    simpl. intros [= <-]. destruct (fi_low _ _ _ _ Hinv k y Hy) as [Hc _].
    assert (Hpos : (0 <= 1 / inject_Z (Z.of_nat (length h)))%Q).
    { apply Qle_shift_div_l.
      - change 0%Q with (inject_Z 0). rewrite <- Zlt_Qlt.
        destruct h; [done|simpl; lia].
      - lra. }
    destruct (has_target (downhill m h) k); lra.
Qed.

Lemma getFlux_share_and_total_witness :
  length (getFlux k4_mesh [3; 2; 1; 0]%Q) = length [3; 2; 1; 0]%Q
  /\ (forall i, (i < length [3; 2; 1; 0]%Q)%nat ->
        exists x, getFlux k4_mesh [3; 2; 1; 0]%Q !! i = Some x
                  /\ (1 / inject_Z (Z.of_nat (length [3; 2; 1; 0]%Q)) <= x)%Q)
  /\ (Qsum (getFlux k4_mesh [3; 2; 1; 0]%Q) == 1 + handed_flux k4_mesh [3; 2; 1; 0]%Q)%Q
  /\ (0 <= handed_flux k4_mesh [3; 2; 1; 0]%Q)%Q.
Proof.
  apply (getFlux_share_and_total k4_mesh [3; 2; 1; 0]%Q); [reflexivity|discriminate].
Defined.





(** ** Centres: centroid and terrCenter *)

(** [centroid(pts)]: the mean of the coordinates; [0 / 0] over no point. *)
Definition centroid (pts : list point) : jsnum * jsnum :=
  let s := foldl (fun (a : Q * Q) (p : point) => (fst a + fst p, snd a + snd p)%Q)
                 (0, 0)%Q pts in
  let k := Fin (inject_Z (Z.of_nat (length pts))) in
  (jdiv (Fin (fst s)) k, jdiv (Fin (snd s)) k).

(** [terr.length] of the sparse array: one past its last index. *)
Definition terr_length (terr : gmap nat nat) : nat :=
  foldr (fun (kv : nat * nat) n => Nat.max (S (fst kv)) n) 0%nat (map_to_list terr).

(** One round of the loop of [terrCenter]; reading a coordinate of a vertex
    that the mesh does not have throws. *)
Definition center_step (m : Mesh) (h : field) (terr : gmap nat nat) (city : nat)
    (landOnly : bool) (acc : outcome (Q * Q * nat)) (i : nat) : outcome (Q * Q * nat) :=
  match acc with
  | Throw e => Throw e
  | Ret (x, y, n) =>
      if negb (bool_decide (terr !! i = Some city)) then Ret (x, y, n)
      else if landOnly && match h !! i with Some v => Qle_bool v 0 | None => false end
      then Ret (x, y, n)
      else match vxs m !! i with
           | Some p => Ret ((x + fst p)%Q, (y + snd p)%Q, S n)
           | None => Throw "TypeError"
           end
  end.

(** [terrCenter(h, terr, city, landOnly)] *)
Definition terrCenter (m : Mesh) (h : field) (terr : gmap nat nat) (city : nat)
    (landOnly : bool) : outcome (jsnum * jsnum) :=
  match foldl (center_step m h terr city landOnly) (Ret (0, 0, 0%nat)%Q)
              (seq 0 (terr_length terr)) with
  | Throw e => Throw e
  | Ret (x, y, n) =>
      let k := Fin (inject_Z (Z.of_nat n)) in
      Ret (jdiv (Fin x) k, jdiv (Fin y) k)
  end.

(** *** normalize keeps the order *)

(** X25: [normalize] keeps the order of the heights: over a field that is
    not constant, a vertex that is not higher than another one before is not
    higher after. *)
Theorem normalize_monotone (h : field) (i j : nat) (x y : Q) :
  (exists a b, a ∈ h /\ b ∈ h /\ (a < b)%Q) ->
  h !! i = Some x -> h !! j = Some y -> (x <= y)%Q ->
  exists x' y', normalize h !! i = Some (Fin x') /\ normalize h !! j = Some (Fin y')
                /\ (x' <= y')%Q.
Proof.
  intros (a & b & Ha & Hb & Hab) Hx Hy Hxy.
  assert (Hne : h <> []) by (intros ->; by apply elem_of_nil in Ha).
  destruct (field_bounds h Hne) as (lo & hi & Hlo & Hhi & _ & _ & Hb').
  pose proof (Hb' a Ha). pose proof (Hb' b Hb).
  assert (Hpos : (0 < hi + - lo)%Q) by lra.
  rewrite (normalize_lookup h i x lo hi Hlo Hhi Hx).
  rewrite (normalize_lookup h j y lo hi Hlo Hhi Hy). simpl.
  destruct (Qeq_bool (hi + - lo) 0) eqn:E; qbool; [lra|].
  eexists _, _. split_and!; [done..|].
  apply Qle_shift_div_l; [done|]. unfold Qdiv. rewrite <- Qmult_assoc.
  rewrite (Qmult_comm (/ _)), Qmult_inv_r by lra. lra.
Qed.

Lemma normalize_monotone_witness :
  exists x' y', normalize [3; 1; 2]%Q !! 1%nat = Some (Fin x')
                /\ normalize [3; 1; 2]%Q !! 2%nat = Some (Fin y') /\ (x' <= y')%Q.
Proof.
  apply (normalize_monotone [3; 1; 2]%Q 1 2 1 2); [|reflexivity|reflexivity|lra].
  exists 1%Q, 2%Q. split_and!; [|  |lra].
  - apply elem_of_cons. right. apply elem_of_cons. by left.
  - apply elem_of_cons. right. apply elem_of_cons. right. apply elem_of_cons. by left.
Defined.

(** *** centroid *)

Lemma centroid_sums (pts : list point) : forall a : Q * Q,
  foldl (fun (a : Q * Q) (p : point) => (fst a + fst p, snd a + snd p)%Q) a pts
  = (foldl Qplus (fst a) (fst <$> pts), foldl Qplus (snd a) (snd <$> pts)).
Proof.
  induction pts as [|p pts IH]; intros [x y]; [done|]. simpl. by rewrite IH.
Qed.

Lemma mean_bounds (xs : list Q) (lo hi : Q) :
  xs <> [] -> Forall (fun x => (lo <= x <= hi)%Q) xs ->
  exists v, jdiv (Fin (foldl Qplus 0%Q xs)) (Fin (inject_Z (Z.of_nat (length xs)))) = Fin v
            /\ (lo <= v <= hi)%Q.
Proof.
  intros Hne Hall.
  assert (Hk : (0 < inject_Z (Z.of_nat (length xs)))%Q).
  { change 0%Q with (inject_Z 0). rewrite <- Zlt_Qlt. destruct xs; [done|simpl; lia]. }
  destruct (foldl_Qplus_bounds xs lo hi 0 Hall) as [H1 H2].
  set (k := inject_Z (Z.of_nat (length xs))) in *. simpl.
  destruct (Qeq_bool k 0) eqn:E; qbool; [lra|].
  eexists. split; [reflexivity|]. split.
  - apply Qle_shift_div_l; [done|]. lra.
  - apply Qle_shift_div_r; [done|]. lra.
Qed.

(** X26: the centroid of no point is [(NaN, NaN)]; the centroid of a list
    of points lies in every box that holds them all. *)
Theorem centroid_inside (pts : list point) :
  (pts = [] -> centroid pts = (NaN, NaN))
  /\ (pts <> [] ->
      forall lox hix loy hiy,
        (forall p, p ∈ pts -> (lox <= fst p <= hix)%Q /\ (loy <= snd p <= hiy)%Q) ->
        exists cx cy, centroid pts = (Fin cx, Fin cy)
                      /\ (lox <= cx <= hix)%Q /\ (loy <= cy <= hiy)%Q).
Proof.
  split; [by intros ->|].
  intros Hne lox hix loy hiy Hbox. unfold centroid. rewrite centroid_sums.
  cbn [fst snd].
  destruct (mean_bounds (fst <$> pts) lox hix) as (cx & Hcx & Hx).
  { by destruct pts. }
  { rewrite Forall_fmap, Forall_forall. intros p Hp. by apply Hbox. }
  destruct (mean_bounds (snd <$> pts) loy hiy) as (cy & Hcy & Hy).
  { by destruct pts. }
  { rewrite Forall_fmap, Forall_forall. intros p Hp. by apply Hbox. }
  rewrite length_fmap in Hcx, Hcy. rewrite Hcx, Hcy. by exists cx, cy.
Qed.

(** *** terrCenter *)

Lemma terr_length_above (terr : gmap nat nat) (i c : nat) :
  terr !! i = Some c -> (i < terr_length terr)%nat.
Proof.
  intros Hi. apply elem_of_map_to_list in Hi. unfold terr_length.
  induction (map_to_list terr) as [|kv l IH]; [by apply elem_of_nil in Hi|].
  apply elem_of_cons in Hi as [<-|Hi]; simpl; [lia|]. specialize (IH Hi). lia.
Qed.

(** The vertex counts: it belongs to the city and, with [landOnly], is not
    at or under the sea level. *)
Definition counted (h : field) (terr : gmap nat nat) (city : nat) (landOnly : bool)
    (i : nat) : bool :=
  bool_decide (terr !! i = Some city)
  && negb (landOnly && match h !! i with Some v => Qle_bool v 0 | None => false end).

Lemma center_fold (m : Mesh) (h : field) (terr : gmap nat nat) (city : nat)
    (landOnly : bool) (idxs : list nat) : forall x y n,
  (forall i, i ∈ idxs -> counted h terr city landOnly i = true -> is_Some (vxs m !! i)) ->
  foldl (center_step m h terr city landOnly) (Ret (x, y, n)) idxs
  = Ret (foldl Qplus x ((fun i => fst (vx m i)) <$> filter (counted h terr city landOnly) idxs),
         foldl Qplus y ((fun i => snd (vx m i)) <$> filter (counted h terr city landOnly) idxs),
         (n + length (filter (counted h terr city landOnly) idxs))%nat).
Proof.
  induction idxs as [|i idxs IH]; intros x y n Hvx.
  - simpl. by rewrite Nat.add_0_r.
  - cbn [foldl]. rewrite filter_cons.
    assert (Hrest : forall k, k ∈ idxs -> counted h terr city landOnly k = true ->
                      is_Some (vxs m !! k)).
    { intros k Hk. apply Hvx. by right. }
    destruct (decide (counted h terr city landOnly i)) as [Hc|Hc].
    + apply Is_true_true in Hc. destruct (Hvx i) as [p Hp]; [by left|done|].
      unfold counted in Hc. apply andb_true_iff in Hc as [Hc1 Hc2].
      apply negb_true_iff in Hc2.
      assert (Hs : center_step m h terr city landOnly (Ret (x, y, n)) i
                   = Ret ((x + fst p)%Q, (y + snd p)%Q, S n)).
      { unfold center_step. rewrite Hc1, Hc2, Hp. done. }
      assert (Hv : vx m i = p) by (unfold vx; by rewrite Hp).
      rewrite Hs, IH by done. rewrite !fmap_cons. cbn [foldl length]. cbn beta.
      rewrite Hv. do 2 f_equal. lia.
    + apply Is_true_false in Hc.
      assert (Hs : center_step m h terr city landOnly (Ret (x, y, n)) i = Ret (x, y, n)).
      { unfold center_step. unfold counted in Hc.
        destruct (bool_decide (terr !! i = Some city)); cbn [negb andb] in *; [|done].
        apply negb_false_iff in Hc. by rewrite Hc. }
      rewrite Hs. by apply IH.
Qed.

(** X27: the centre of a territory lies in every box that holds the
    vertices of the territory, when the city owns a vertex that counts (with
    [landOnly]: one above the sea level). *)
Theorem terrCenter_inside (m : Mesh) (h : field) (terr : gmap nat nat) (city : nat)
    (landOnly : bool) (lox hix loy hiy : Q) :
  (forall i, terr !! i = Some city ->
     exists p, vxs m !! i = Some p
               /\ (lox <= fst p <= hix)%Q /\ (loy <= snd p <= hiy)%Q) ->
  (exists i, counted h terr city landOnly i = true) ->
  exists cx cy, terrCenter m h terr city landOnly = Ret (Fin cx, Fin cy)
                /\ (lox <= cx <= hix)%Q /\ (loy <= cy <= hiy)%Q.
Proof.
  intros Hbox (i0 & Hi0). unfold terrCenter.
  set (idxs := seq 0 (terr_length terr)).
  assert (Hown : forall i, counted h terr city landOnly i = true -> terr !! i = Some city).
  { intros i Hi. unfold counted in Hi. apply andb_true_iff in Hi as [Hi _].
    by apply bool_decide_eq_true in Hi. }
  rewrite center_fold.
  2:{ intros i _ Hi. destruct (Hbox i (Hown i Hi)) as (p & -> & _). by eexists. }
  set (l := filter (counted h terr city landOnly) idxs).
  assert (Hne : l <> []).
  { assert (Hin : i0 ∈ l).
    { apply list_elem_of_filter. split; [by apply Is_true_true|].
      apply elem_of_seq. pose proof (terr_length_above terr i0 city (Hown i0 Hi0)). lia. }
    intros E. rewrite E in Hin. by apply elem_of_nil in Hin. }
  assert (Hall : forall i, i ∈ l ->
            (lox <= fst (vx m i) <= hix)%Q /\ (loy <= snd (vx m i) <= hiy)%Q).
  { intros i Hi. apply list_elem_of_filter in Hi as [Hi _]. apply Is_true_true in Hi.
    destruct (Hbox i (Hown i Hi)) as (p & Hp & Hb). unfold vx. by rewrite Hp. }
  destruct (mean_bounds ((fun i => fst (vx m i)) <$> l) lox hix) as (cx & Hcx & Hx).
  { by destruct l. }
  { rewrite Forall_fmap, Forall_forall. intros i Hi. by apply Hall. }
  destruct (mean_bounds ((fun i => snd (vx m i)) <$> l) loy hiy) as (cy & Hcy & Hy).
  { by destruct l. }
  { rewrite Forall_fmap, Forall_forall. intros i Hi. by apply Hall. }
  rewrite length_fmap in Hcx, Hcy. cbn [Nat.add]. rewrite Hcx, Hcy. by exists cx, cy.
Qed.

(** X28: the centre of a territory without a vertex that counts (a city
    that owns nothing or, with [landOnly], only vertices at or under the sea
    level) is [(NaN, NaN)]: the source divides 0 by 0. *)
Theorem terrCenter_of_nothing (m : Mesh) (h : field) (terr : gmap nat nat) (city : nat)
    (landOnly : bool) :
  (forall i, counted h terr city landOnly i = false) ->
  terrCenter m h terr city landOnly = Ret (NaN, NaN).
Proof.
  intros Hnone. unfold terrCenter. rewrite center_fold.
  2:{ intros i _ Hi. by rewrite Hnone in Hi. }
  assert (E : filter (counted h terr city landOnly) (seq 0 (terr_length terr)) = []).
  { induction (seq 0 (terr_length terr)) as [|i l IH]; [done|].
    rewrite filter_cons, decide_False; [done|]. rewrite Hnone. simpl. tauto. }
  by rewrite E.
Qed.

(** The four vertices split between the cities 0 and 3. *)
Definition centre_terr : gmap nat nat := <[0 := 0]> (<[1 := 0]> (<[2 := 3]> (<[3 := 3]> ∅)))%nat.

Lemma terrCenter_inside_witness :
  exists cx cy, terrCenter k4_mesh [1; 1; 1; 1]%Q centre_terr 0 false = Ret (Fin cx, Fin cy)
                /\ (0 <= cx <= 1 # 10)%Q /\ (0 <= cy <= 0)%Q.
Proof.
  apply (terrCenter_inside k4_mesh [1; 1; 1; 1]%Q centre_terr 0 false 0 (1 # 10) 0 0).
  - intros i Hi. unfold centre_terr in Hi.
    rewrite !lookup_insert_Some, lookup_empty in Hi.
    destruct Hi as [[<- _]|[_ [[<- _]|[_ [[_ ?]|[_ [[_ ?]|[_ ?]]]]]]]]; try done.
    + exists (0, 0)%Q. split; [reflexivity|]. simpl. lra.
    + exists (1 # 10, 0)%Q. split; [reflexivity|]. simpl. lra.
  - exists 0%nat. reflexivity.
Defined.

Lemma terrCenter_of_nothing_witness :
  terrCenter k4_mesh [1; 1; 1; 1]%Q centre_terr 1 false = Ret (NaN, NaN).
Proof.
  apply (terrCenter_of_nothing k4_mesh [1; 1; 1; 1]%Q centre_terr 1 false).
  intros i. unfold counted. rewrite bool_decide_eq_false_2; [done|].
  unfold centre_terr. rewrite !lookup_insert_Some, lookup_empty.
  intros [[_ ?]|[_ [[_ ?]|[_ [[_ ?]|[_ [[_ ?]|[_ ?]]]]]]]]; done.
Defined.
